(** * searcher: a TF-IDF inverted index and cosine ranking over a document store

    Shallow embedding of the Go package [searcher] (the query side of
    Searcher.go, the connector with the indexing side, and the record
    declarations) and verification of its specification.

    Modelling conventions.
    - [float64] is Rocq's primitive binary64 float, every operation rounded
      on its own; [math.Sqrt] is the correctly rounded [PrimFloat.sqrt];
      [math.Log] is a parameter.
    - [int] is a 64-bit two's complement integer, carried as a [Z] with the
      wrap-around written out ([GoInt]).
    - A Go [map] is an association list with unique keys.  The order in which
      [range] visits a map is unspecified in Go; every loop over a map takes
      the visiting order as an explicit [range_order] argument.
    - The three collections are lists of documents.  [Find(sel).One(&x)]
      decodes the first matching document into the struct [x] and leaves
      [x] untouched when nothing matches; a target that is no struct (the
      [float64] of [queryRank]) cannot take a document: the call fails, the
      error is dropped and the target keeps its value.  [Insert] appends a
      document.  [Update(sel, doc)] with a document that names no update
      operator (the key [set] of [updateIDF] carries no dollar sign)
      replaces the first matching document by [doc], and does nothing when
      there is none.  [RemoveAll] drops every matching document, [Distinct]
      yields the distinct values of a field, [Count] is the number of
      documents.  A selector is the conjunction of its field conditions,
      [$in] under a field is membership of the field in the list; a selector
      with an operator as top-level key (the one of [rank]) is refused by
      the store, and [All] then leaves its target slice empty.
    - The tokenizer is an external collaborator: its segmentation is the
      parameter [lexto]; its session state ([SetText], [HasNext], [Next]) is
      the list of tokens not yet consumed, stored in the connector.
    - [sort.Sort] is an external library routine: it is a parameter where
      only its contract matters, and [insertionSort] (the routine the library
      runs on slices of at most twelve elements) where a run is evaluated. *)

From Stdlib Require Import ZArith PArith List String Ascii Bool Floats Lia.
From Stdlib Require Import Permutation Sorted RelationClasses.
Import ListNotations.

Local Open Scope Z_scope.
Local Open Scope string_scope.
Local Open Scope list_scope.

(** ** Machine integers *)

Module GoInt.

Definition min_int : Z := - 2 ^ 63.
Definition max_int : Z := 2 ^ 63 - 1.

(** Two's complement wrap-around of a 64-bit signed result. *)
Definition wrap (z : Z) : Z := (z + 2 ^ 63) mod 2 ^ 64 - 2 ^ 63.

Definition add (a b : Z) : Z := wrap (a + b).
Definition mul (a b : Z) : Z := wrap (a * b).

(** The conversion [float64(n)]: the integer rounded to nearest even. *)
Definition to_float64 (n : Z) : float :=
  SF2Prim (binary_normalize prec emax n 0 false).

End GoInt.

(** ** Go maps *)

Section GoMap.

Context {K V : Type} (eqb : K -> K -> bool).

(** [m[k]] with the comma-ok idiom. *)
Fixpoint map_get (m : list (K * V)) (k : K) : option V :=
  match m with
  | [] => None
  | (k', v) :: rest => if eqb k' k then Some v else map_get rest k
  end.

(** [m[k] = v]: overwrite the entry of [k], or add one. *)
Fixpoint map_set (m : list (K * V)) (k : K) (v : V) : list (K * V) :=
  match m with
  | [] => [(k, v)]
  | (k', v') :: rest =>
      if eqb k' k then (k', v) :: rest else (k', v') :: map_set rest k v
  end.

Definition map_mem (m : list (K * V)) (k : K) : bool :=
  match map_get m k with Some _ => true | None => false end.

End GoMap.

(** The order in which a [range] loop visits the entries of a map. *)
Definition range_order : Type := forall A : Type, list A -> list A.

Definition fair (o : range_order) : Prop :=
  forall (A : Type) (l : list A), Permutation (o A l) l.

Definition in_order : range_order := fun _ l => l.
Definition backwards : range_order := fun _ l => rev l.

(** ** Data model *)

Definition ObjectId : Type := string.

Record Blog : Type := {
  Blog_id : ObjectId;
  Title : string;
  Content : string;
  Tags : list string
}.

Record Inverted_Index : Type := {
  idx_Term : string;
  idx_Blog_id : ObjectId;
  idx_Tf : float;
  idx_Tf_Idf : float
}.

Record Term_Weight : Type := {
  tw_Term : string;
  tw_Total_blogs : Z;
  tw_Idf : float
}.

(** The zero value [Term_Weight{}]. *)
Definition Term_Weight_zero : Term_Weight :=
  {| tw_Term := ""; tw_Total_blogs := 0; tw_Idf := 0%float |}.

Record Similarity : Type := {
  blog : ObjectId;
  cosine : float
}.

(** What the code observes of a [tokenizer.Token]: its text and its two
    classifiers.  Tokens that agree on the three are the same key of a
    [map[tokenizer.Token]int]. *)
Record Token : Type := {
  GetText : string;
  IsSpace : bool;
  IsHTML : bool
}.

Definition Token_eqb (a b : Token) : bool :=
  (GetText a =? GetText b)
  && Bool.eqb (IsSpace a) (IsSpace b)
  && Bool.eqb (IsHTML a) (IsHTML b).

(** A document of the term weight collection: a record as [Insert] stores
    it, or the document that the replacing [Update] of [updateIDF] leaves,
    whose only field [set] holds an idf and a count and which has no term. *)
Inductive Weight_Document : Type :=
| Stored (row : Term_Weight)
| Replaced (idf : float) (total_blogs : Z).

(** The condition [term = t] of a selector. *)
Definition has_term (t : string) (doc : Weight_Document) : bool :=
  match doc with
  | Stored row => tw_Term row =? t
  | Replaced _ _ => false
  end.

(** A document decoded into a [Term_Weight]: the fields that the document
    lacks are zero. *)
Definition decode_Term_Weight (doc : Weight_Document) : Term_Weight :=
  match doc with
  | Stored row => row
  | Replaced _ _ => Term_Weight_zero
  end.

Record DBConnector : Type := {
  termTable : list Inverted_Index;
  weightTable : list Weight_Document;
  blogTable : list Blog;
  tokenizer : list Token
}.

Definition set_tokenizer (toks : list Token) (data : DBConnector) : DBConnector :=
  {| termTable := termTable data;
     weightTable := weightTable data;
     blogTable := blogTable data;
     tokenizer := toks |}.

Definition set_weightTable (w : list Weight_Document) (data : DBConnector)
    : DBConnector :=
  {| termTable := termTable data;
     weightTable := w;
     blogTable := blogTable data;
     tokenizer := tokenizer data |}.

Definition set_termTable (t : list Inverted_Index) (data : DBConnector) : DBConnector :=
  {| termTable := t;
     weightTable := weightTable data;
     blogTable := blogTable data;
     tokenizer := tokenizer data |}.

Definition set_blogTable (b : list Blog) (data : DBConnector) : DBConnector :=
  {| termTable := termTable data;
     weightTable := weightTable data;
     blogTable := b;
     tokenizer := tokenizer data |}.

(** ** Store operations *)

(** [Find(sel).One(&x)] with a struct [x]: the first matching document is
    decoded into [x]; [x] keeps its value when no document matches. *)
Definition One {D R : Type} (decode : D -> R) (sel : D -> bool)
    (table : list D) (x : R) : R :=
  match find sel table with
  | Some doc => decode doc
  | None => x
  end.

(** [Find(sel).One(&x)] with an [x] that cannot take a document: decoding
    fails when a document matches, nothing is found otherwise; either way
    the error is dropped and [x] keeps its value. *)
Definition One_undecodable {D R : Type} (sel : D -> bool) (table : list D)
    (x : R) : R :=
  match find sel table with
  | Some _ => x
  | None => x
  end.

(** [Find(sel).All(&rows)] with a selector that the store refuses: no
    document is delivered and [rows] is left empty. *)
Definition All_refused {D : Type} (table : list D) : list D := [].

(** [Update(sel, change)]: the first matching document is rewritten. *)
Fixpoint Update {R : Type} (sel : R -> bool) (change : R -> R)
    (table : list R) : list R :=
  match table with
  | [] => []
  | row :: rest =>
      if sel row then change row :: rest else row :: Update sel change rest
  end.

Definition Insert {R : Type} (row : R) (table : list R) : list R :=
  table ++ [row].

Definition RemoveAll {R : Type} (sel : R -> bool) (table : list R) : list R :=
  filter (fun row => negb (sel row)) table.

(** [Distinct]: the distinct values, in an order the driver does not fix. *)
Definition Distinct (ids : list ObjectId) : list ObjectId :=
  nodup string_dec ids.

Definition mem_string (s : string) (l : list string) : bool :=
  existsb (String.eqb s) l.

(** ** Similarities: the [sort.Interface] instance *)

(** [Less(i, j)] on the two elements it compares. *)
Definition Less (a b : Similarity) : bool :=
  PrimFloat.ltb (cosine a) (cosine b).

(** One run of the inner loop of the library's [insertionSort]: the element
    [x], placed after the already processed prefix, is swapped towards the
    front while [Less] holds against its left neighbour.  The prefix is kept
    reversed, nearest neighbour first. *)
Fixpoint sink (x : Similarity) (rprefix : list Similarity) : list Similarity :=
  match rprefix with
  | [] => [x]
  | y :: rest => if Less x y then y :: sink x rest else x :: rprefix
  end.

Definition insertionSort (slice : list Similarity) : list Similarity :=
  rev (fold_left (fun rprefix x => sink x rprefix) slice []).

(** ** Mathematical functions of the ranking side *)

(** [query[key]] on a [map[string]float64]: zero when the key is absent. *)
Definition index_float (m : list (string * float)) (key : string) : float :=
  match map_get String.eqb m key with
  | Some v => v
  | None => 0%float
  end.

Definition crossProduct (o : range_order)
    (query blog : list (string * float)) : float :=
  fold_left
    (fun results kv => (results + snd kv * index_float query (fst kv))%float)
    (o _ blog) 0%float.

Definition magnitude (o : range_order) (vector : list (string * float)) : float :=
  PrimFloat.sqrt
    (fold_left (fun results kv => (results + snd kv * snd kv)%float)
       (o _ vector) 0%float).

Definition cosineSimilarity (o : range_order)
    (query blog : list (string * float)) : float :=
  (crossProduct o query blog / (magnitude o query * magnitude o blog))%float.

Definition arrangeTerms (terms : list Inverted_Index) : list (string * float) :=
  fold_left (fun results i => map_set String.eqb results (idx_Term i) (idx_Tf_Idf i))
    terms [].

(** The loop of [queryRank]; [idf] is declared once, before the loop, and
    is the [float64] target of [One]. *)
Fixpoint queryRank_loop (weights : list Weight_Document) (terms : list string)
    (idf : float) (results : list (string * float)) : list (string * float) :=
  match terms with
  | [] => results
  | i :: rest =>
      let idf' := One_undecodable (has_term i) weights idf in
      queryRank_loop weights rest idf' (map_set String.eqb results i idf')
  end.

Definition queryRank (data : DBConnector) (terms : list string)
    : list (string * float) :=
  queryRank_loop (weightTable data) terms 0%float [].

Definition retrieve (data : DBConnector) (terms : list string) : list ObjectId :=
  Distinct
    (map idx_Blog_id
       (filter (fun row => mem_string (idx_Term row) terms) (termTable data))).

(** The loop of [Query] over the token stream: [termFound] and [terms]. *)
Fixpoint Query_loop (tokens : list Token) (termFound : list (string * bool))
    (terms : list string) : list string :=
  match tokens with
  | [] => terms
  | token :: rest =>
      if map_mem String.eqb termFound (GetText token) then
        Query_loop rest termFound terms
      else if IsSpace token then
        Query_loop rest termFound terms
      else
        Query_loop rest (map_set String.eqb termFound (GetText token) true)
          (terms ++ [GetText token])
  end.

Section Searcher.

(** The segmentation performed by the tokenizer on a text. *)
Variable lexto : string -> list Token.

(** [sort.Sort] on a [Similarities] slice. *)
Variable sort_Sort : list Similarity -> list Similarity.

Definition SetText (text : string) (data : DBConnector) : DBConnector :=
  set_tokenizer (lexto text) data.

Definition Query_terms (keyword : string) : list string :=
  Query_loop (lexto keyword) [] [].

(** The rows that step 3 of [rank] fetches for the blog [i]: the selector
    has the operator [$in] as a top-level key, next to [blog_id]. *)
Definition blogTerms_of (data : DBConnector) (terms : list string)
    (i : ObjectId) : list Inverted_Index :=
  All_refused (termTable data).

Definition score (o : range_order) (data : DBConnector)
    (terms : list string) (i : ObjectId) : float :=
  cosineSimilarity o (queryRank data terms)
    (arrangeTerms (blogTerms_of data terms i)).

Definition rank_results (o : range_order) (data : DBConnector)
    (terms : list string) (blogs : list ObjectId) : list Similarity :=
  fold_left
    (fun results i =>
       results ++ [ {| blog := i; cosine := score o data terms i |} ])
    blogs [].

Definition rank (o : range_order) (data : DBConnector)
    (terms : list string) (blogs : list ObjectId) : list ObjectId :=
  let results := sort_Sort (rank_results o data terms blogs) in
  fold_left (fun blogIDs i => blogIDs ++ [blog i]) results [].

(** [Query] returns the ranked identifiers and leaves the tokenizer
    session exhausted. *)
Definition Query (o : range_order) (keyword : string) (data : DBConnector)
    : list ObjectId * DBConnector :=
  let data1 := SetText keyword data in
  let terms := Query_loop (tokenizer data1) [] [] in
  let data2 := set_tokenizer [] data1 in
  let blogs := retrieve data2 terms in
  (rank o data2 terms blogs, data2).

End Searcher.

(** ** Mathematical functions of the indexing side *)

Definition euclidean_norm (o : range_order) (frequency : list (Token * Z)) : float :=
  PrimFloat.sqrt
    (fold_left
       (fun result kv =>
          (result + GoInt.to_float64 (GoInt.mul (snd kv) (snd kv)))%float)
       (o _ frequency) 0%float).

Definition term_freq (occurences : Z) (normalization : float) : float :=
  (GoInt.to_float64 occurences / normalization)%float.

Definition tf_idf (tf idf : float) : float := (tf * idf)%float.

(** The loop of [count_occurences] over the token stream. *)
Fixpoint count_loop (tokens : list Token) (frequency : list (Token * Z))
    : list (Token * Z) :=
  match tokens with
  | [] => frequency
  | token :: rest =>
      if IsSpace token || IsHTML token then
        count_loop rest frequency
      else
        match map_get Token_eqb frequency token with
        | Some n => count_loop rest (map_set Token_eqb frequency token (GoInt.add n 1))
        | None => count_loop rest (map_set Token_eqb frequency token 1)
        end
  end.

(** The text assembled by [AddIndexes]. *)
Definition assemble (b : Blog) : string :=
  fold_left (fun content i => (content ++ " " ++ i)%string) (Tags b)
    (Title b ++ " " ++ Content b)%string.

Section Indexer.

Variable lexto : string -> list Token.

(** [math.Log]. *)
Variable math_Log : float -> float.

(** How the store compares a stored term with a [Token] value handed over
    as the selector of [RemoveIndexes]. *)
Variable term_is_token : string -> Token -> bool.

Definition inverse_document_freq (termBlogs totalBlogs : Z) : float :=
  math_Log (GoInt.to_float64 totalBlogs / GoInt.to_float64 termBlogs)%float.

(** [count_occurences] returns the map and exhausts the token stream. *)
Definition count_occurences (content : string) (data : DBConnector)
    : list (Token * Z) * DBConnector :=
  let data1 := SetText lexto content data in
  (count_loop (tokenizer data1) [], set_tokenizer [] data1).

(** One iteration of the loop of [updateIDF]: the state is the variable
    [weightRow], declared before the loop, and the weight table.  The
    document handed to [Update] has the single key [set]: it replaces the
    document of the term. *)
Definition updateIDF_step (totalBlogs : Z)
    (state : Term_Weight * list Weight_Document) (key : Token)
    : Term_Weight * list Weight_Document :=
  let (weightRow, weights) := state in
  let weightRow' :=
    One decode_Term_Weight (has_term (GetText key)) weights weightRow in
  if tw_Term weightRow' =? "" then
    (weightRow',
     Insert
       (Stored
          {| tw_Term := GetText key;
             tw_Total_blogs := 1;
             tw_Idf := inverse_document_freq 1 totalBlogs |})
       weights)
  else
    let termBlogs := GoInt.add (tw_Total_blogs weightRow') 1 in
    (weightRow',
     Update (has_term (GetText key))
       (fun _ => Replaced (inverse_document_freq termBlogs totalBlogs) termBlogs)
       weights).

Definition updateIDF (o : range_order) (frequency : list (Token * Z))
    (data : DBConnector) : DBConnector :=
  let totalBlogs := Z.of_nat (List.length (blogTable data)) in
  let keys := map fst (o _ frequency) in
  set_weightTable
    (snd (fold_left (updateIDF_step totalBlogs) keys
            (Term_Weight_zero, weightTable data)))
    data.

(** One iteration of the loop of [newIndexes]: the state is the variable
    [idf], declared before the loop, and the inverted index. *)
Definition newIndexes_step (weights : list Weight_Document) (blogID : ObjectId)
    (norm : float) (state : Term_Weight * list Inverted_Index)
    (kv : Token * Z) : Term_Weight * list Inverted_Index :=
  let (idf, index) := state in
  let (key, value) := kv in
  let idf' := One decode_Term_Weight (has_term (GetText key)) weights idf in
  let tf := term_freq value norm in
  (idf',
   Insert
     {| idx_Term := GetText key;
        idx_Blog_id := blogID;
        idx_Tf := tf;
        idx_Tf_Idf := tf_idf tf (tw_Idf idf') |}
     index).

Definition newIndexes (o : range_order) (frequency : list (Token * Z))
    (blogID : ObjectId) (norm : float) (data : DBConnector) : DBConnector :=
  set_termTable
    (snd (fold_left (newIndexes_step (weightTable data) blogID norm)
            (o _ frequency) (Term_Weight_zero, termTable data)))
    data.

(** [AddIndexes]; the three orders are those of the loops over
    [frequency] in [euclidean_norm], [updateIDF] and [newIndexes]. *)
Definition AddIndexes (o_norm o_idf o_idx : range_order) (b : Blog)
    (data : DBConnector) : DBConnector :=
  let content := assemble b in
  let (frequency, data1) := count_occurences content data in
  let norm := euclidean_norm o_norm frequency in
  let data2 := updateIDF o_idf frequency data1 in
  newIndexes o_idx frequency (Blog_id b) norm data2.

(** The condition [term = token] of the selector of [RemoveIndexes]; a
    document without term does not meet it. *)
Definition has_token (token : Token) (doc : Weight_Document) : bool :=
  match doc with
  | Stored row => term_is_token (tw_Term row) token
  | Replaced _ _ => false
  end.

(** One iteration of the loop of [RemoveIndexes]. *)
Definition RemoveIndexes_step (state : Term_Weight * list Weight_Document)
    (token : Token) : Term_Weight * list Weight_Document :=
  let (weightRow, weights) := state in
  let weightRow' := One decode_Term_Weight (has_token token) weights weightRow in
  if (tw_Total_blogs weightRow' <=? 1)%Z then
    (weightRow', RemoveAll (has_token token) weights)
  else
    (weightRow', weights).

(** [RemoveIndexes] reads the token stream as it finds it: the text is
    not set from the blog. *)
Definition RemoveIndexes (b : Blog) (data : DBConnector) : DBConnector :=
  let weights :=
    snd (fold_left RemoveIndexes_step (tokenizer data)
           (Term_Weight_zero, weightTable data)) in
  set_termTable
    (RemoveAll (fun row => idx_Blog_id row =? Blog_id b) (termTable data))
    (set_weightTable weights (set_tokenizer [] data)).

Definition Create_index_forAllBlogs (o_norm o_idf o_idx : range_order)
    (data : DBConnector) : DBConnector :=
  fold_left (fun d b => AddIndexes o_norm o_idf o_idx b d) (blogTable data) data.

End Indexer.

(** ** Orders on scored entries *)

(** What [sort.Sort] establishes between an entry and its successor: the
    successor is not [Less] than the entry. *)
Definition not_before (a b : Similarity) : Prop := Less b a = false.

(** [a] scores at most [b]. *)
Definition scores_le (a b : Similarity) : Prop :=
  PrimFloat.leb (cosine a) (cosine b) = true.

(** The score is a number. *)
Definition numeric (a : Similarity) : Prop :=
  PrimFloat.is_nan (cosine a) = false.

(** ** Reading the stores *)

(** The record of a term, as [Find(term).One] sees it. *)
Definition lookup_weight (t : string) (weights : list Weight_Document)
    : option Term_Weight :=
  option_map decode_Term_Weight (find (has_term t) weights).

(** The term and the count of a document, when it has them. *)
Definition summarize (doc : Weight_Document) : option (string * Z) :=
  match doc with
  | Stored row => Some (tw_Term row, tw_Total_blogs row)
  | Replaced _ _ => None
  end.

Definition summary (data : DBConnector) : list (option (string * Z)) :=
  map summarize (weightTable data).

(** The number of index rows of a term for a document. *)
Definition index_rows (t : string) (id : ObjectId)
    (index : list Inverted_Index) : nat :=
  List.length
    (filter (fun row => (idx_Term row =? t) && (idx_Blog_id row =? id)) index).

(** The document that [updateIDF] puts in the place of the record [row] of
    a known term, and the record that it inserts for a new term. *)
Definition replacement (math_Log : float -> float) (N : Z)
    (row : Term_Weight) : Weight_Document :=
  Replaced
    (inverse_document_freq math_Log (GoInt.add (tw_Total_blogs row) 1) N)
    (GoInt.add (tw_Total_blogs row) 1).

Definition counted_first (math_Log : float -> float) (N : Z)
    (t : string) : Term_Weight :=
  {| tw_Term := t;
     tw_Total_blogs := 1;
     tw_Idf := inverse_document_freq math_Log 1 N |}.

(** The stored [idf] of a document of the statistics store, with or
    without term, is the logarithm of [N], the number of documents of the
    corpus, over the count that the document holds. *)
Definition idf_agrees (math_Log : float -> float) (N : Z)
    (doc : Weight_Document) : Prop :=
  match doc with
  | Stored row =>
      tw_Idf row
      = math_Log (GoInt.to_float64 N / GoInt.to_float64 (tw_Total_blogs row))%float
  | Replaced idf n =>
      idf = math_Log (GoInt.to_float64 N / GoInt.to_float64 n)%float
  end.

(** A record that carries a term holds the count 1. *)
Definition counted_once (doc : Weight_Document) : Prop :=
  match doc with
  | Stored row => tw_Total_blogs row = 1
  | Replaced _ _ => True
  end.

(** The number of documents in the blog table. *)
Definition corpus_size (data : DBConnector) : Z :=
  Z.of_nat (List.length (blogTable data)).

(** ** Sequences of indexing calls *)

(** One call of [AddIndexes]: the blog and the three visiting orders. *)
Record Call : Type := {
  call_norm : range_order;
  call_idf : range_order;
  call_idx : range_order;
  call_blog : Blog
}.

Definition fair_call (c : Call) : Prop :=
  fair (call_norm c) /\ fair (call_idf c) /\ fair (call_idx c).

Definition run_call (lexto : string -> list Token) (math_Log : float -> float)
    (data : DBConnector) (c : Call) : DBConnector :=
  AddIndexes lexto math_Log (call_norm c) (call_idf c) (call_idx c)
    (call_blog c) data.

Definition run_calls (lexto : string -> list Token) (math_Log : float -> float)
    (calls : list Call) (data : DBConnector) : DBConnector :=
  fold_left (run_call lexto math_Log) calls data.

(** The terms of a text that the indexer counts. *)
Definition indexable (token : Token) : bool :=
  negb (IsSpace token || IsHTML token).

(** The map that [AddIndexes] builds for a blog. *)
Definition frequency_of (lexto : string -> list Token) (b : Blog)
    : list (Token * Z) :=
  count_loop (lexto (assemble b)) [].

(** The tokenizer classifies a text as markup wherever it occurs, or
    nowhere. *)
Definition markup_by_text (lexto : string -> list Token) : Prop :=
  forall (text1 text2 : string) (t1 t2 : Token),
    In t1 (lexto text1) -> In t2 (lexto text2) ->
    GetText t1 = GetText t2 -> IsHTML t1 = IsHTML t2.

(** The term of an index row is the text of a counted token of some text. *)
Definition from_counted_token (lexto : string -> list Token)
    (row : Inverted_Index) : Prop :=
  exists (text : string) (k : Token),
    In k (lexto text) /\ indexable k = true /\ idx_Term row = GetText k.

(** ** Reference functions for the token loops *)

(** How often a token occurs in a token stream. *)
Definition occurrences (token : Token) (tokens : list Token) : Z :=
  Z.of_nat (List.length (filter (Token_eqb token) tokens)).

(** A list reduced to the first occurrence of each of its elements. *)
Fixpoint first_occurrences (l : list string) : list string :=
  match l with
  | [] => []
  | x :: rest => x :: filter (fun y => negb (y =? x)) (first_occurrences rest)
  end.

(** The texts of the tokens that are not whitespace, in stream order. *)
Definition spoken_texts (tokens : list Token) : list string :=
  map GetText (filter (fun token => negb (IsSpace token)) tokens).

(** ** Concrete collaborators for evaluated runs *)

Module Sample.

(** A blank-separated segmentation: every blank is a whitespace token,
    every maximal run of other characters is a word, classified as markup
    when it opens with an angle bracket. *)
Definition word_token (w : string) : Token :=
  {| GetText := w; IsSpace := false; IsHTML := String.prefix "<" w |}.

Definition blank_token : Token :=
  {| GetText := " "; IsSpace := true; IsHTML := false |}.

Definition flush (w : string) : list Token :=
  if w =? "" then [] else [word_token w].

Fixpoint scan (text word : string) : list Token :=
  match text with
  | EmptyString => flush word
  | String c rest =>
      if Ascii.eqb c " "%char then flush word ++ blank_token :: scan rest ""
      else scan rest (word ++ String c "")%string
  end.

Definition lexto (text : string) : list Token := scan text "".

(** A segmentation that classifies by context: words that open with an
    angle bracket are markup in a text that itself opens with one, and
    plain words in any other text. *)
Definition contextual_lexto (text : string) : list Token :=
  if String.prefix "<" text then lexto text
  else map (fun token => {| GetText := GetText token;
                            IsSpace := IsSpace token;
                            IsHTML := false |})
         (lexto text).

(** The natural logarithm by the series of the inverse hyperbolic tangent,
    [ln x = 2 (z + z^3/3 + z^5/5 + ...)] with [z = (x-1)/(x+1)]; accurate
    near 1, which is all the evaluated runs need. *)
Fixpoint atanh_series (n : nat) (k : float) (zpow z2 acc : float) : float :=
  match n with
  | O => acc
  | S n' => atanh_series n' (k + 2) (zpow * z2) z2 (acc + zpow / k)
  end%float.

Definition log (x : float) : float :=
  let z := ((x - 1) / (x + 1))%float in
  (2 * atanh_series 40 1 z (z * z) 0)%float.

(** The store compares a stored term with the text of the token. *)
Definition by_text (term : string) (token : Token) : bool :=
  term =? GetText token.

Definition post (id title content : string) : Blog :=
  {| Blog_id := id; Title := title; Content := content; Tags := [] |}.

Definition entry (term : string) (id : ObjectId) (w : float) : Inverted_Index :=
  {| idx_Term := term; idx_Blog_id := id; idx_Tf := w; idx_Tf_Idf := w |}.

Definition weight (term : string) (n : Z) (idf : float) : Term_Weight :=
  {| tw_Term := term; tw_Total_blogs := n; tw_Idf := idf |}.

Definition stored (term : string) (n : Z) (idf : float) : Weight_Document :=
  Stored (weight term n idf).

(** Two indexed documents: [doc1] holds both query terms, [doc2] one. *)
Definition two_docs : DBConnector :=
  {| termTable := [ entry "cat" "doc1" 1; entry "dog" "doc1" 1;
                    entry "cat" "doc2" 1 ];
     weightTable := [ stored "cat" 2 1; stored "dog" 1 1 ];
     blogTable := [];
     tokenizer := [] |}.

(** A store that knows the term [cat] from one document. *)
Definition knows_cat : DBConnector :=
  {| termTable := [ entry "cat" "doc0" 1 ];
     weightTable := [ stored "cat" 1 1.5 ];
     blogTable := [ post "doc0" "cat" "" ];
     tokenizer := [] |}.

(** Two documents hold [cat]; the row of [docA] carries the weight zero, as
    a row does whose term had the inverse document frequency [ln 1] when
    the document was indexed. *)
Definition flat_doc : DBConnector :=
  {| termTable := [ entry "cat" "docA" 0; entry "cat" "docB" 0.5 ];
     weightTable := [ stored "cat" 2 1 ];
     blogTable := [];
     tokenizer := [] |}.

(** An empty index over a corpus of one blog. *)
Definition one_blog : DBConnector :=
  {| termTable := []; weightTable := [];
     blogTable := [ post "doc1" "cat" "" ]; tokenizer := [] |}.

(** A store that knows [cat] and [dog], each from one document, with a
    token stream left unread that holds [dog]. *)
Definition leftover_dog : DBConnector :=
  {| termTable := [ entry "cat" "doc1" 1; entry "dog" "doc2" 1 ];
     weightTable := [ stored "cat" 1 1; stored "dog" 1 1 ];
     blogTable := [ post "doc1" "cat" ""; post "doc2" "dog" "" ];
     tokenizer := lexto "dog" |}.

(** The empty index of one blog, after that blog was indexed once. *)
Definition indexed_once : DBConnector :=
  AddIndexes lexto log in_order in_order in_order (post "doc1" "cat dog" "")
    {| termTable := []; weightTable := [];
       blogTable := [ post "doc1" "cat dog" "" ]; tokenizer := [] |}.

(** The blog [cat] is stored and indexed; then the blog [dog] is stored,
    which makes a corpus of two, and indexed. *)
Definition cat_indexed : DBConnector :=
  AddIndexes lexto log in_order in_order in_order (post "doc1" "cat" "") one_blog.

Definition dog_stored : DBConnector :=
  set_blogTable [ post "doc1" "cat" ""; post "doc2" "dog" "" ] cat_indexed.

Definition dog_indexed : DBConnector :=
  AddIndexes lexto log in_order in_order in_order (post "doc2" "dog" "") dog_stored.

(** Two indexing calls, for two blogs that both hold [cat]. *)
Definition call (b : Blog) : Call :=
  {| call_norm := in_order; call_idf := backwards; call_idx := in_order;
     call_blog := b |}.

Definition two_calls : list Call :=
  [ call (post "doc1" "cat dog" ""); call (post "doc2" "fish cat" "") ].

(** One blog whose text holds markup, and the call that indexes it. *)
Definition markup_blog : DBConnector :=
  {| termTable := []; weightTable := [];
     blogTable := [ post "doc1" "see <b> cat" "" ]; tokenizer := [] |}.

Definition markup_calls : list Call :=
  [ call (post "doc1" "see <b> cat" "") ].

(** An index that holds a row which no [AddIndexes] under [lexto] writes:
    its term is a text that [lexto] classifies as markup. *)
Definition foreign_row : DBConnector :=
  {| termTable := [ entry "<b>" "doc9" 1 ]; weightTable := [];
     blogTable := []; tokenizer := [] |}.

(** Two stored blogs that both hold [cat], nothing indexed yet. *)
Definition two_blogs : DBConnector :=
  {| termTable := []; weightTable := [];
     blogTable := [ post "doc1" "cat dog" ""; post "doc2" "fish cat" "" ];
     tokenizer := [] |}.

End Sample.

(** * Verification *)

(** ** Machine integers *)

Lemma GoInt_wrap_small (z : Z) :
  GoInt.min_int <= z <= GoInt.max_int -> GoInt.wrap z = z.
Proof.
  unfold GoInt.wrap, GoInt.min_int, GoInt.max_int. intros H.
  rewrite Z.mod_small; lia.
Qed.

Lemma GoInt_add_one (n : Z) :
  GoInt.min_int <= n < GoInt.max_int -> GoInt.add n 1 = n + 1.
Proof.
  intros H. unfold GoInt.add. apply GoInt_wrap_small.
  unfold GoInt.min_int, GoInt.max_int in *. lia.
Qed.

(** ** Lists, maps and store operations *)

Lemma fold_left_snoc {A B : Type} (f : A -> B) (l : list A) (init : list B) :
  fold_left (fun acc x => acc ++ [f x]) l init = init ++ map f l.
Proof.
  revert init. induction l as [|x l IH]; intros init; simpl.
  - now rewrite app_nil_r.
  - rewrite IH, <- app_assoc. reflexivity.
Qed.

Lemma Token_eqb_eq (a b : Token) : Token_eqb a b = true <-> a = b.
Proof.
  unfold Token_eqb. destruct a as [ta sa ha], b as [tb sb hb]; simpl.
  rewrite !andb_true_iff, String.eqb_eq, !Bool.eqb_true_iff.
  split.
  - intros [[-> ->] ->]. reflexivity.
  - intros H. injection H as -> -> ->. auto.
Qed.

Lemma mem_string_In (s : string) (l : list string) :
  mem_string s l = true <-> In s l.
Proof.
  unfold mem_string. rewrite existsb_exists. split.
  - intros [x [Hx Heq]]. apply String.eqb_eq in Heq. now subst.
  - intros H. exists s. split; [assumption | apply String.eqb_refl].
Qed.

Section MapFacts.

Context {K V : Type} (eqb : K -> K -> bool).
Hypothesis eqb_eq : forall a b, eqb a b = true <-> a = b.

Lemma map_get_Some_In (m : list (K * V)) (k : K) (v : V) :
  map_get eqb m k = Some v -> In (k, v) m.
Proof.
  induction m as [|[k' v'] m IH]; simpl; [discriminate|].
  destruct (eqb k' k) eqn:E.
  - intros H. injection H as ->. apply eqb_eq in E. subst. now left.
  - intros H. right. auto.
Qed.

Lemma map_get_None_notin (m : list (K * V)) (k : K) :
  map_get eqb m k = None <-> ~ In k (map fst m).
Proof.
  induction m as [|[k' v'] m IH]; simpl.
  - tauto.
  - destruct (eqb k' k) eqn:E.
    + apply eqb_eq in E. subst. split; [discriminate | intros H; exfalso; auto].
    + rewrite IH. split.
      * intros H [Hk | Hk]; [|auto].
        subst. assert (eqb k k = true) by now apply eqb_eq. congruence.
      * intros H Hk. apply H. now right.
Qed.

Lemma map_set_keeps_key (m : list (K * V)) (k k0 : K) (v : V) :
  In k0 (map fst m) -> In k0 (map fst (map_set eqb m k v)).
Proof.
  induction m as [|[k' v'] m IH]; simpl; [tauto|].
  destruct (eqb k' k); simpl; intros [H | H]; auto.
Qed.

Lemma map_set_has_key (m : list (K * V)) (k : K) (v : V) :
  In k (map fst (map_set eqb m k v)).
Proof.
  induction m as [|[k' v'] m IH]; simpl; [now left|].
  destruct (eqb k' k) eqn:E; simpl.
  - left. now apply eqb_eq.
  - now right.
Qed.

Lemma map_set_key_inv (m : list (K * V)) (k k0 : K) (v : V) :
  In k0 (map fst (map_set eqb m k v)) -> k0 = k \/ In k0 (map fst m).
Proof.
  induction m as [|[k' v'] m IH]; simpl.
  - intros [H | []]. now left.
  - destruct (eqb k' k); simpl; intros [H | H]; auto.
    destruct (IH H); auto.
Qed.

Lemma map_set_NoDup (m : list (K * V)) (k : K) (v : V) :
  NoDup (map fst m) -> NoDup (map fst (map_set eqb m k v)).
Proof.
  induction m as [|[k' v'] m IH]; simpl; intros H.
  - constructor; [intros [] | constructor].
  - inversion H as [|? ? Hnotin Hnd]; subst.
    destruct (eqb k' k) eqn:E; simpl.
    + constructor; assumption.
    + constructor; [|auto].
      intros Hin. apply map_set_key_inv in Hin as [-> | Hin]; [|auto].
      assert (eqb k k = true) by now apply eqb_eq. congruence.
Qed.

End MapFacts.

(** ** The query side *)

Lemma string_eqb_eq (a b : string) : (a =? b) = true <-> a = b.
Proof. apply String.eqb_eq. Qed.

(** Terms already collected stay collected. *)
Lemma Query_loop_keeps (tokens : list Token) (found : list (string * bool))
    (terms : list string) (t : string) :
  In t terms -> In t (Query_loop tokens found terms).
Proof.
  revert found terms. induction tokens as [|token rest IH]; intros found terms H; simpl.
  - assumption.
  - destruct (map_mem String.eqb found (GetText token)); [auto|].
    destruct (IsSpace token); [auto|].
    apply IH. apply in_or_app. now left.
Qed.

(** Every token that is not whitespace ends up among the terms, whether or
    not it is markup. *)
Lemma Query_loop_complete (tokens : list Token) (found : list (string * bool))
    (terms : list string) (token : Token) :
  (forall t, In t (map fst found) -> In t terms) ->
  In token tokens -> IsSpace token = false ->
  In (GetText token) (Query_loop tokens found terms).
Proof.
  revert found terms.
  induction tokens as [|tok rest IH]; intros found terms Hinv Hin Hns; simpl.
  - destruct Hin.
  - assert (Hstep : forall t,
               In t (map fst (map_set String.eqb found (GetText tok) true)) ->
               In t (terms ++ [GetText tok])).
    { intros t Ht. apply (map_set_key_inv String.eqb) in Ht as [-> | Ht].
      - apply in_or_app. right. now left.
      - apply in_or_app. left. auto. }
    destruct Hin as [-> | Hin].
    + unfold map_mem. destruct (map_get String.eqb found (GetText token)) eqn:G.
      * apply Query_loop_keeps. apply Hinv.
        apply (map_get_Some_In String.eqb string_eqb_eq) in G.
        change (GetText token) with (fst (GetText token, b)).
        now apply in_map.
      * rewrite Hns. apply Query_loop_keeps. apply in_or_app. right. now left.
    + destruct (map_mem String.eqb found (GetText tok)); [auto|].
      destruct (IsSpace tok); [auto|].
      apply IH; auto.
Qed.

(** Conversely every term is the text of a token that is not whitespace. *)
Lemma Query_loop_sound (tokens : list Token) (found : list (string * bool))
    (terms : list string) (t : string) :
  In t (Query_loop tokens found terms) ->
  In t terms \/
  exists token, In token tokens /\ IsSpace token = false /\ GetText token = t.
Proof.
  revert found terms. induction tokens as [|tok rest IH]; intros found terms H; simpl in H.
  - now left.
  - assert (Hrest : forall P : Prop,
               (P \/ exists token, In token rest /\ IsSpace token = false /\ GetText token = t) ->
               (P \/ exists token, In token (tok :: rest) /\ IsSpace token = false /\ GetText token = t)).
    { intros P [HP | [token [Hin Hrest]]]; [now left|].
      right. exists token. split; [now right | assumption]. }
    destruct (map_mem String.eqb found (GetText tok)); [apply Hrest, IH with found; exact H|].
    destruct (IsSpace tok) eqn:Hs; [apply Hrest, IH with found; exact H|].
    apply IH in H. destruct H as [H | H]; [|apply Hrest; now right].
    apply in_app_or in H as [H | [<- | []]]; [now left|].
    right. exists tok. split; [now left | auto].
Qed.

(** The terms of a query are pairwise distinct. *)
Lemma Query_loop_NoDup (tokens : list Token) (found : list (string * bool))
    (terms : list string) :
  (forall t, In t terms -> In t (map fst found)) ->
  NoDup terms -> NoDup (Query_loop tokens found terms).
Proof.
  revert found terms. induction tokens as [|tok rest IH]; intros found terms Hinv Hnd; simpl.
  - assumption.
  - unfold map_mem. destruct (map_get String.eqb found (GetText tok)) eqn:G; [auto|].
    destruct (IsSpace tok); [auto|].
    apply IH.
    + intros t Ht. apply in_app_or in Ht as [Ht | [<- | []]].
      * apply map_set_keeps_key. auto.
      * apply (map_set_has_key String.eqb string_eqb_eq).
    + apply (map_get_None_notin String.eqb string_eqb_eq) in G.
      apply NoDup_app; [assumption | constructor; [intros [] | constructor] |].
      intros a Ha [<- | []]. auto.
Qed.

Lemma retrieve_In (data : DBConnector) (terms : list string) (id : ObjectId) :
  In id (retrieve data terms) <->
  exists row, In row (termTable data) /\ In (idx_Term row) terms /\ idx_Blog_id row = id.
Proof.
  unfold retrieve, Distinct. rewrite nodup_In, in_map_iff. split.
  - intros [row [Hid Hin]]. apply filter_In in Hin as [Hin Hmem].
    exists row. rewrite <- mem_string_In. auto.
  - intros [row [Hin [Hmem Hid]]]. exists row. split; [assumption|].
    apply filter_In. rewrite mem_string_In. auto.
Qed.

Lemma retrieve_NoDup (data : DBConnector) (terms : list string) :
  NoDup (retrieve data terms).
Proof. apply NoDup_nodup. Qed.

Lemma rank_results_map (o : range_order) (data : DBConnector)
    (terms : list string) (blogs : list ObjectId) :
  rank_results o data terms blogs =
  map (fun i => {| blog := i; cosine := score o data terms i |}) blogs.
Proof. unfold rank_results. now rewrite fold_left_snoc. Qed.

Lemma rank_results_blogs (o : range_order) (data : DBConnector)
    (terms : list string) (blogs : list ObjectId) :
  map blog (rank_results o data terms blogs) = blogs.
Proof.
  rewrite rank_results_map, map_map. simpl. apply map_id.
Qed.

Lemma rank_map (sort_Sort : list Similarity -> list Similarity)
    (o : range_order) (data : DBConnector) (terms : list string)
    (blogs : list ObjectId) :
  rank sort_Sort o data terms blogs =
  map blog (sort_Sort (rank_results o data terms blogs)).
Proof. unfold rank. now rewrite fold_left_snoc. Qed.

(** The library's insertion sort only moves elements. *)
Lemma sink_Permutation (x : Similarity) (rprefix : list Similarity) :
  Permutation (sink x rprefix) (x :: rprefix).
Proof.
  induction rprefix as [|y rest IH]; simpl.
  - reflexivity.
  - destruct (Less x y).
    + rewrite IH. apply perm_swap.
    + reflexivity.
Qed.

Lemma insertionSort_Permutation (slice : list Similarity) :
  Permutation (insertionSort slice) slice.
Proof.
  unfold insertionSort. rewrite <- Permutation_rev.
  assert (H : forall acc,
             Permutation (fold_left (fun rprefix x => sink x rprefix) slice acc)
               (slice ++ acc)).
  { induction slice as [|x slice IH]; intros acc; simpl.
    - reflexivity.
    - rewrite IH, sink_Permutation. symmetry. apply Permutation_middle. }
  rewrite H, app_nil_r. reflexivity.
Qed.

Section RankingContract.

Variable lexto : string -> list Token.
Variable sort_Sort : list Similarity -> list Similarity.

(** [sort.Sort] rearranges the slice through [Swap] only. *)
Hypothesis sort_Sort_permutes : forall l, Permutation (sort_Sort l) l.

Lemma rank_Permutation (o : range_order) (data : DBConnector)
    (terms : list string) (blogs : list ObjectId) :
  Permutation (rank sort_Sort o data terms blogs) blogs.
Proof.
  rewrite rank_map.
  rewrite <- (rank_results_blogs o data terms blogs) at 2.
  apply Permutation_map, sort_Sort_permutes.
Qed.

Lemma Query_result (o : range_order) (keyword : string) (data : DBConnector) :
  fst (Query lexto sort_Sort o keyword data) =
  rank sort_Sort o (set_tokenizer [] (SetText lexto keyword data))
    (Query_terms lexto keyword) (retrieve data (Query_terms lexto keyword)).
Proof. reflexivity. Qed.

(** C9: the list returned by [Query] is a permutation of the distinct
    candidates of the retrieval step: ranking builds one scored entry per
    candidate, whatever its score, and the result has no duplicate and the
    length of the candidate list. *)
Theorem Query_permutes_candidates (o : range_order) (keyword : string)
    (data : DBConnector) :
  let terms := Query_terms lexto keyword in
  let candidates := retrieve data terms in
  let data' := snd (Query lexto sort_Sort o keyword data) in
  map blog (rank_results o data' terms candidates) = candidates /\
  Permutation (fst (Query lexto sort_Sort o keyword data)) candidates /\
  NoDup (fst (Query lexto sort_Sort o keyword data)) /\
  List.length (fst (Query lexto sort_Sort o keyword data)) = List.length candidates.
Proof.
  intros terms candidates data'.
  assert (HP : Permutation (fst (Query lexto sort_Sort o keyword data)) candidates).
  { rewrite Query_result. apply rank_Permutation. }
  repeat split.
  - apply rank_results_blogs.
  - exact HP.
  - apply (Permutation_NoDup (Permutation_sym HP)), retrieve_NoDup.
  - apply Permutation_length, HP.
Qed.

End RankingContract.

(** ** The indexing side *)

Lemma count_loop_keeps (tokens : list Token) (frequency : list (Token * Z))
    (k : Token) :
  In k (map fst frequency) -> In k (map fst (count_loop tokens frequency)).
Proof.
  revert frequency. induction tokens as [|token rest IH]; intros frequency H; simpl.
  - assumption.
  - destruct (IsSpace token || IsHTML token); [auto|].
    destruct (map_get Token_eqb frequency token);
      apply IH, map_set_keeps_key, H.
Qed.

(** Every token that is neither whitespace nor markup is counted. *)
Lemma count_loop_complete (tokens : list Token) (frequency : list (Token * Z))
    (token : Token) :
  In token tokens -> indexable token = true ->
  In token (map fst (count_loop tokens frequency)).
Proof.
  unfold indexable. revert frequency.
  induction tokens as [|tok rest IH]; intros frequency Hin Hidx; simpl.
  - destruct Hin.
  - destruct Hin as [-> | Hin].
    + apply negb_true_iff in Hidx. rewrite Hidx.
      destruct (map_get Token_eqb frequency token);
        apply count_loop_keeps, (map_set_has_key Token_eqb Token_eqb_eq).
    + destruct (IsSpace tok || IsHTML tok); [auto|].
      destruct (map_get Token_eqb frequency tok); auto.
Qed.

(** Only such tokens are counted. *)
Lemma count_loop_sound (tokens : list Token) (frequency : list (Token * Z))
    (k : Token) :
  In k (map fst (count_loop tokens frequency)) ->
  In k (map fst frequency) \/ (In k tokens /\ indexable k = true).
Proof.
  unfold indexable. revert frequency.
  induction tokens as [|tok rest IH]; intros frequency H; simpl in H.
  - now left.
  - destruct (IsSpace tok || IsHTML tok) eqn:E.
    + apply IH in H as [H | [H1 H2]]; [now left | right; split; [now right | assumption]].
    + assert (Hset : forall n,
                 In k (map fst (count_loop rest (map_set Token_eqb frequency tok n))) ->
                 In k (map fst frequency) \/
                 (In k (tok :: rest) /\ negb (IsSpace k || IsHTML k) = true)).
      { intros n Hn. apply IH in Hn as [Hn | [H1 H2]].
        - apply (map_set_key_inv Token_eqb) in Hn as [-> | Hn]; [|now left].
          right. split; [now left | now rewrite E].
        - right. split; [now right | assumption]. }
      destruct (map_get Token_eqb frequency tok); eapply Hset; exact H.
Qed.

Lemma count_loop_NoDup (tokens : list Token) (frequency : list (Token * Z)) :
  NoDup (map fst frequency) -> NoDup (map fst (count_loop tokens frequency)).
Proof.
  revert frequency. induction tokens as [|tok rest IH]; intros frequency H; simpl.
  - assumption.
  - destruct (IsSpace tok || IsHTML tok); [auto|].
    destruct (map_get Token_eqb frequency tok);
      apply IH, (map_set_NoDup Token_eqb Token_eqb_eq), H.
Qed.

Section IndexerFacts.

Variable lexto : string -> list Token.
Variable math_Log : float -> float.

Lemma frequency_of_In (b : Blog) (k : Token) :
  In k (map fst (frequency_of lexto b)) <->
  In k (lexto (assemble b)) /\ indexable k = true.
Proof.
  unfold frequency_of. split.
  - intros H. apply count_loop_sound in H as [[] | H]. exact H.
  - intros [H1 H2]. now apply count_loop_complete.
Qed.

(** [newIndexes] appends one row per visited entry, for the blog. *)
Lemma newIndexes_fold (weights : list Weight_Document) (blogID : ObjectId)
    (norm : float) (visited : list (Token * Z)) (idf : Term_Weight)
    (index : list Inverted_Index) :
  exists rows,
    snd (fold_left (newIndexes_step weights blogID norm) visited (idf, index))
    = index ++ rows /\
    map (fun r => (idx_Term r, idx_Blog_id r)) rows
    = map (fun kv => (GetText (fst kv), blogID)) visited.
Proof.
  revert idf index. induction visited as [|[key value] visited IH]; intros idf index.
  - exists []. simpl. now rewrite app_nil_r.
  - simpl. unfold Insert.
    match goal with |- context [fold_left _ visited (?i, index ++ [?r])] =>
      destruct (IH i (index ++ [r])) as [rows [Hrows Hmap]];
      exists (r :: rows)
    end.
    rewrite Hrows, <- app_assoc. simpl. now rewrite Hmap.
Qed.

Lemma AddIndexes_termTable (o_norm o_idf o_idx : range_order) (b : Blog)
    (data : DBConnector) :
  exists rows,
    termTable (AddIndexes lexto math_Log o_norm o_idf o_idx b data)
    = termTable data ++ rows /\
    map (fun r => (idx_Term r, idx_Blog_id r)) rows
    = map (fun kv => (GetText (fst kv), Blog_id b)) (o_idx _ (frequency_of lexto b)).
Proof.
  unfold AddIndexes, count_occurences, newIndexes. simpl.
  apply newIndexes_fold.
Qed.

Lemma AddIndexes_weightTable (o_norm o_idf o_idx : range_order) (b : Blog)
    (data : DBConnector) :
  weightTable (AddIndexes lexto math_Log o_norm o_idf o_idx b data)
  = snd (fold_left
           (updateIDF_step math_Log (Z.of_nat (List.length (blogTable data))))
           (map fst (o_idf _ (frequency_of lexto b)))
           (Term_Weight_zero, weightTable data)).
Proof. reflexivity. Qed.

Lemma AddIndexes_blogTable (o_norm o_idf o_idx : range_order) (b : Blog)
    (data : DBConnector) :
  blogTable (AddIndexes lexto math_Log o_norm o_idf o_idx b data) = blogTable data.
Proof. reflexivity. Qed.

Lemma AddIndexes_tokenizer (o_norm o_idf o_idx : range_order) (b : Blog)
    (data : DBConnector) :
  tokenizer (AddIndexes lexto math_Log o_norm o_idf o_idx b data) = [].
Proof. reflexivity. Qed.

(** Index rows are never removed by indexing calls. *)
Lemma run_calls_termTable_grows (calls : list Call) (data : DBConnector)
    (row : Inverted_Index) :
  In row (termTable data) ->
  In row (termTable (run_calls lexto math_Log calls data)).
Proof.
  revert data. induction calls as [|c calls IH]; intros data H; simpl.
  - assumption.
  - apply IH. unfold run_call.
    destruct (AddIndexes_termTable (call_norm c) (call_idf c) (call_idx c)
                (call_blog c) data) as [rows [-> _]].
    apply in_or_app. now left.
Qed.

(** After [AddIndexes], every counted term of the blog has an index row
    that carries the blog's identifier. *)
Lemma AddIndexes_indexes_term (o_norm o_idf o_idx : range_order) (b : Blog)
    (data : DBConnector) (token : Token) :
  fair o_idx ->
  In token (lexto (assemble b)) -> indexable token = true ->
  exists row,
    In row (termTable (AddIndexes lexto math_Log o_norm o_idf o_idx b data)) /\
    idx_Term row = GetText token /\ idx_Blog_id row = Blog_id b.
Proof.
  intros Hfair Hin Hidx.
  destruct (AddIndexes_termTable o_norm o_idf o_idx b data) as [rows [-> Hmap]].
  assert (Hk : In token (map fst (o_idx _ (frequency_of lexto b)))).
  { apply (Permutation_in _ (Permutation_sym (Permutation_map fst (Hfair _ _)))).
    now apply frequency_of_In. }
  apply in_map_iff in Hk as [[k v] [Hfst Hkv]]. simpl in Hfst. subst k.
  assert (Hpair : In (GetText token, Blog_id b)
                    (map (fun r => (idx_Term r, idx_Blog_id r)) rows)).
  { rewrite Hmap.
    change (GetText token, Blog_id b)
      with ((fun kv : Token * Z => (GetText (fst kv), Blog_id b)) (token, v)).
    now apply in_map. }
  apply in_map_iff in Hpair as [row [Heq Hrow]].
  injection Heq as Ht Hb.
  exists row. split; [apply in_or_app; now right | auto].
Qed.

End IndexerFacts.

(** ** Indexing, then querying *)

Section RoundTrip.

Variable lexto : string -> list Token.
Variable math_Log : float -> float.
Variable sort_Sort : list Similarity -> list Similarity.

Hypothesis sort_Sort_permutes : forall l, Permutation (sort_Sort l) l.

Lemma Query_terms_complete (text : string) (token : Token) :
  In token (lexto text) -> IsSpace token = false ->
  In (GetText token) (Query_terms lexto text).
Proof.
  intros Hin Hns. unfold Query_terms.
  apply Query_loop_complete with (token := token); auto.
Qed.

Lemma Query_returns_indexed (o : range_order) (text : string)
    (data : DBConnector) (row : Inverted_Index) :
  In row (termTable data) -> In (idx_Term row) (Query_terms lexto text) ->
  In (idx_Blog_id row) (fst (Query lexto sort_Sort o text data)).
Proof.
  intros Hrow Hterm. rewrite (Query_result lexto sort_Sort).
  apply (Permutation_in _ (Permutation_sym (rank_Permutation sort_Sort sort_Sort_permutes _ _ _ _))).
  apply retrieve_In. exists row. auto.
Qed.

(** C5: when a blog holds a term that is neither whitespace nor markup,
    then after [AddIndexes] of that blog (and after any further indexing
    calls) every [Query] whose text holds that term as a token returns a
    list that contains the blog's identifier.  That the term occurs in no
    other document is not needed. *)
Theorem AddIndexes_then_Query_returns_blog
    (o_norm o_idf o_idx o : range_order) (b : Blog) (later : list Call)
    (data : DBConnector) (text : string) (token qtoken : Token) :
  fair o_idx ->
  In token (lexto (assemble b)) ->
  IsSpace token = false -> IsHTML token = false ->
  In qtoken (lexto text) ->
  IsSpace qtoken = false -> GetText qtoken = GetText token ->
  In (Blog_id b)
    (fst (Query lexto sort_Sort o text
            (run_calls lexto math_Log later
               (AddIndexes lexto math_Log o_norm o_idf o_idx b data)))).
Proof.
  intros Hfair Hin Hns Hnh Hq Hqns Htext.
  assert (Hidx : indexable token = true).
  { unfold indexable. now rewrite Hns, Hnh. }
  destruct (AddIndexes_indexes_term lexto math_Log o_norm o_idf o_idx b data
              token Hfair Hin Hidx) as [row [Hrow [Hterm Hid]]].
  rewrite <- Hid. apply Query_returns_indexed.
  - now apply run_calls_termTable_grows.
  - rewrite Hterm, <- Htext. now apply Query_terms_complete.
Qed.

End RoundTrip.

Lemma in_order_fair : fair in_order.
Proof. intros A l. reflexivity. Qed.

Lemma backwards_fair : fair backwards.
Proof. intros A l. symmetry. apply Permutation_rev. Qed.

Lemma Query_permutes_candidates_witness :
  (forall l, Permutation (insertionSort l) l) /\
  Permutation
    (fst (Query Sample.lexto insertionSort in_order "cat dog" Sample.two_docs))
    (retrieve Sample.two_docs (Query_terms Sample.lexto "cat dog")).
Proof.
  split; [exact insertionSort_Permutation|].
  apply (Query_permutes_candidates Sample.lexto insertionSort
           insertionSort_Permutation in_order "cat dog" Sample.two_docs).
Defined.

Lemma AddIndexes_then_Query_returns_blog_witness :
  In "doc1"
    (fst (Query Sample.lexto insertionSort in_order "where is the dog"
            (run_calls Sample.lexto Sample.log []
               (AddIndexes Sample.lexto Sample.log in_order in_order in_order
                  (Sample.post "doc1" "cat dog" "") Sample.knows_cat)))).
Proof.
  apply (AddIndexes_then_Query_returns_blog Sample.lexto Sample.log insertionSort
           insertionSort_Permutation in_order in_order in_order in_order
           (Sample.post "doc1" "cat dog" "") [] Sample.knows_cat
           "where is the dog"
           (Sample.word_token "dog") (Sample.word_token "dog")).
  - exact in_order_fair.
  - vm_compute. auto.
  - reflexivity.
  - reflexivity.
  - vm_compute. auto 10.
  - reflexivity.
  - reflexivity.
Defined.


(** ** Degenerate vectors *)

(** Closes a goal on the specification of a float comparison once the
    operands are split by class: reflexive comparisons are rewritten and
    the remaining sign is enumerated. *)
Ltac solve_sign_cases :=
  try rewrite Z.compare_refl;
  try rewrite Pos.compare_cont_refl;
  try reflexivity;
  match goal with
  | s : bool |- _ => destruct s; reflexivity
  end.

Lemma SFeqb_zero_inv (x : spec_float) :
  SFeqb x (S754_zero false) = true -> exists s, x = S754_zero s.
Proof.
  destruct x as [s | s | | s m e]; unfold SFeqb; simpl; try discriminate.
  - intros _. now exists s.
  - destruct s; discriminate.
  - destruct s; discriminate.
Qed.

Lemma is_zero_inv (x : float) :
  PrimFloat.is_zero x = true -> exists s, Prim2SF x = S754_zero s.
Proof.
  unfold PrimFloat.is_zero. rewrite eqb_spec.
  change (Prim2SF zero) with (S754_zero false). apply SFeqb_zero_inv.
Qed.

Lemma is_finite_spec (x : float) :
  PrimFloat.is_finite x =
  match Prim2SF x with
  | S754_nan | S754_infinity _ => false
  | _ => true
  end.
Proof.
  unfold PrimFloat.is_finite, PrimFloat.is_nan, PrimFloat.is_infinity.
  rewrite !eqb_spec, abs_spec.
  change (Prim2SF infinity) with (S754_infinity false).
  destruct (Prim2SF x) as [s | s | | s m e]; unfold SFeqb; simpl;
    solve_sign_cases.
Qed.

Lemma is_zero_spec (x : float) :
  PrimFloat.is_zero x =
  match Prim2SF x with
  | S754_zero _ => true
  | _ => false
  end.
Proof.
  unfold PrimFloat.is_zero. rewrite eqb_spec.
  change (Prim2SF zero) with (S754_zero false).
  destruct (Prim2SF x) as [s | s | | s m e]; unfold SFeqb; simpl;
    solve_sign_cases.
Qed.

Lemma is_nan_spec (x : float) :
  PrimFloat.is_nan x =
  match Prim2SF x with
  | S754_nan => true
  | _ => false
  end.
Proof.
  unfold PrimFloat.is_nan. rewrite eqb_spec.
  destruct (Prim2SF x) as [s | s | | s m e]; unfold SFeqb; simpl;
    solve_sign_cases.
Qed.

(** A quotient whose divisor is a product with a zero factor is never a
    finite number. *)
Lemma quotient_by_zero_product (x a b : float) :
  PrimFloat.is_zero a = true \/ PrimFloat.is_zero b = true ->
  PrimFloat.is_finite (x / (a * b)) = false.
Proof.
  intros H. rewrite is_finite_spec, div_spec, mul_spec.
  destruct H as [H | H]; apply is_zero_inv in H as [s ->].
  - destruct (Prim2SF b) as [sb | sb | | sb mb eb], (Prim2SF x) as [sx | sx | | sx mx ex];
      reflexivity.
  - destruct (Prim2SF a) as [sa | sa | | sa ma ea], (Prim2SF x) as [sx | sx | | sx mx ex];
      reflexivity.
Qed.

Lemma not_finite_not_zero (x : float) :
  PrimFloat.is_finite x = false -> PrimFloat.is_zero x = false.
Proof.
  rewrite is_finite_spec, is_zero_spec.
  destruct (Prim2SF x); congruence.
Qed.

(** C4, as the code has it: when the magnitude of the query vector or of
    the candidate vector is zero, the cosine similarity is not a finite
    number (it is NaN or an infinity), hence not the number 0; the
    computation is total and signals no error. *)
Theorem cosineSimilarity_zero_magnitude (o : range_order)
    (query blog : list (string * float)) :
  PrimFloat.is_zero (magnitude o query) = true \/
  PrimFloat.is_zero (magnitude o blog) = true ->
  PrimFloat.is_finite (cosineSimilarity o query blog) = false /\
  PrimFloat.is_zero (cosineSimilarity o query blog) = false.
Proof.
  intros H.
  assert (Hnf : PrimFloat.is_finite (cosineSimilarity o query blog) = false).
  { unfold cosineSimilarity. now apply quotient_by_zero_product. }
  split; [exact Hnf | now apply not_finite_not_zero].
Qed.

Lemma cosineSimilarity_zero_magnitude_witness :
  PrimFloat.is_finite
    (cosineSimilarity in_order [("cat", 1%float)] [("cat", 0%float)]) = false /\
  PrimFloat.is_zero
    (cosineSimilarity in_order [("cat", 1%float)] [("cat", 0%float)]) = false.
Proof.
  apply (cosineSimilarity_zero_magnitude in_order [("cat", 1%float)] [("cat", 0%float)]).
  right. vm_compute. reflexivity.
Defined.

(** X20: an empty candidate vector scores NaN against every query
    vector, whatever the visiting order. *)
Lemma cosineSimilarity_empty_blog (o : range_order)
    (query : list (string * float)) :
  fair o -> PrimFloat.is_nan (cosineSimilarity o query []) = true.
Proof.
  intros Hfair.
  assert (Hnil : o _ (@nil (string * float)) = []).
  { apply Permutation_nil. symmetry. apply Hfair. }
  unfold cosineSimilarity, crossProduct. unfold magnitude at 2.
  rewrite Hnil. simpl.
  rewrite is_nan_spec, div_spec, mul_spec.
  change (Prim2SF (PrimFloat.sqrt 0)) with (S754_zero false).
  change (Prim2SF 0) with (S754_zero false).
  destruct (Prim2SF (magnitude o query)) as [s | s | | s m e]; reflexivity.
Qed.

(** C4 fails on the code: the candidate [docA] has a zero magnitude, its
    score is NaN and not 0, and it is returned first; so is the score of
    [docB], whose vector is empty as well. *)
Lemma zero_magnitude_scores_NaN :
  PrimFloat.is_zero
    (magnitude in_order
       (arrangeTerms (blogTerms_of Sample.flat_doc ["cat"] "docA"))) = true /\
  PrimFloat.is_nan (score in_order Sample.flat_doc ["cat"] "docA") = true /\
  PrimFloat.is_zero (score in_order Sample.flat_doc ["cat"] "docA") = false /\
  PrimFloat.is_nan (score in_order Sample.flat_doc ["cat"] "docB") = true /\
  Query_terms Sample.lexto "cat" = ["cat"] /\
  fst (Query Sample.lexto insertionSort in_order "cat" Sample.flat_doc)
  = ["docA"; "docB"].
Proof. vm_compute. repeat split; reflexivity. Qed.


(** ** The order of the ranking *)

Ltac split_compares :=
  repeat match goal with
  | H : context [Z.compare ?a ?b] |- _ =>
      destruct (Z.compare_spec a b); simpl in H; subst
  | |- context [Z.compare ?a ?b] =>
      destruct (Z.compare_spec a b); simpl; subst
  | H : context [Pos.compare ?a ?b] |- _ =>
      destruct (Pos.compare_spec a b); simpl in H; subst
  | |- context [Pos.compare ?a ?b] =>
      destruct (Pos.compare_spec a b); simpl; subst
  end.

Lemma SFleb_trans (a b c : spec_float) :
  SFleb a b = true -> SFleb b c = true -> SFleb a c = true.
Proof.
  unfold SFleb.
  destruct a as [sa | sa | | sa ma ea], b as [sb | sb | | sb mb eb],
    c as [sc | sc | | sc mc ec]; simpl;
    try discriminate; try reflexivity;
    try (destruct sa); try (destruct sb); try (destruct sc); simpl;
    try discriminate; try reflexivity; try (intros; assumption).
  all: change PosDef.Pos.compare_cont with Pos.compare_cont;
    rewrite ?Pos.compare_cont_spec; simpl;
    intros H1 H2; split_compares; try discriminate; try reflexivity; try lia.
Qed.

Lemma SFcompare_swap (a b : spec_float) :
  SFcompare b a =
  match SFcompare a b with Some c => Some (CompOpp c) | None => None end.
Proof.
  destruct a as [sa | sa | | sa ma ea], b as [sb | sb | | sb mb eb]; simpl;
    try reflexivity; try (destruct sa); try (destruct sb); try reflexivity.
  all: change PosDef.Pos.compare_cont with Pos.compare_cont;
    rewrite ?Pos.compare_cont_spec; simpl; split_compares;
    try reflexivity; try lia.
Qed.

Lemma SFltb_asym (a b : spec_float) : SFltb a b = true -> SFltb b a = false.
Proof.
  unfold SFltb. rewrite (SFcompare_swap a b).
  destruct (SFcompare a b) as [[]|]; simpl; congruence.
Qed.

Lemma SFleb_total (a b : spec_float) :
  a <> S754_nan -> b <> S754_nan -> SFltb b a = false -> SFleb a b = true.
Proof.
  unfold SFltb, SFleb. rewrite (SFcompare_swap a b). intros Ha Hb.
  assert (H : exists c, SFcompare a b = Some c).
  { destruct a, b; try congruence; simpl; eauto. }
  destruct H as [c ->]. destruct c; simpl; congruence.
Qed.

Lemma Less_asym (a b : Similarity) : Less a b = true -> Less b a = false.
Proof. unfold Less. rewrite !ltb_spec. apply SFltb_asym. Qed.

Lemma scores_le_trans : Transitive scores_le.
Proof.
  intros a b c. unfold scores_le. rewrite !leb_spec. apply SFleb_trans.
Qed.

Lemma not_before_numeric (a b : Similarity) :
  numeric a -> numeric b -> not_before a b -> scores_le a b.
Proof.
  unfold numeric, not_before, scores_le, Less.
  rewrite !is_nan_spec, ltb_spec, leb_spec. intros Ha Hb.
  apply SFleb_total.
  - destruct (Prim2SF (cosine a)); congruence.
  - destruct (Prim2SF (cosine b)); congruence.
Qed.

Lemma Sorted_snoc {A : Type} (Q : A -> A -> Prop) (l : list A) (x : A) :
  Sorted Q l -> (forall l' y, l = l' ++ [y] -> Q y x) -> Sorted Q (l ++ [x]).
Proof.
  induction l as [|a l IH]; intros Hs Hlast; simpl.
  - repeat constructor.
  - inversion Hs as [|? ? Hs' Hhd]; subst. constructor.
    + apply IH; [assumption|].
      intros l' y ->. apply (Hlast (a :: l') y). reflexivity.
    + destruct l as [|b l]; simpl.
      * constructor. apply (Hlast [] a). reflexivity.
      * constructor. inversion Hhd; assumption.
Qed.

Lemma Sorted_rev {A : Type} (R : A -> A -> Prop) (l : list A) :
  Sorted R l -> Sorted (fun a b => R b a) (rev l).
Proof.
  induction l as [|x l IH]; intros Hs; simpl.
  - constructor.
  - inversion Hs as [|? ? Hs' Hhd]; subst.
    apply Sorted_snoc; [auto|].
    intros l' y Hrev.
    assert (Hl : l = y :: rev l').
    { rewrite <- (rev_involutive l), Hrev, rev_app_distr. reflexivity. }
    subst l. inversion Hhd; assumption.
Qed.

Lemma Sorted_weaken {A : Type} (P : A -> Prop) (R R' : A -> A -> Prop)
    (l : list A) :
  (forall a b, P a -> P b -> R a b -> R' a b) ->
  Forall P l -> Sorted R l -> Sorted R' l.
Proof.
  intros Himp. induction l as [|a l IH]; intros HP Hs.
  - constructor.
  - inversion Hs as [|? ? Hs' Hhd]; subst.
    inversion HP as [|? ? Pa Pl]; subst.
    constructor; [auto|].
    destruct l as [|b l]; constructor.
    inversion Hhd; subst. inversion Pl; subst. auto.
Qed.

(** Sinking an element keeps the reversed prefix ordered. *)
Lemma sink_Sorted (x : Similarity) (rprefix : list Similarity) :
  Sorted (fun a b => not_before b a) rprefix ->
  Sorted (fun a b => not_before b a) (sink x rprefix).
Proof.
  unfold not_before.
  induction rprefix as [|y rest IH]; intros Hs; simpl.
  - repeat constructor.
  - destruct (Less x y) eqn:E.
    + inversion Hs as [|? ? Hs' Hhd]; subst. constructor; [auto|].
      destruct rest as [|z rest]; simpl.
      * constructor. now apply Less_asym.
      * destruct (Less x z); constructor.
        -- inversion Hhd; assumption.
        -- now apply Less_asym.
    + constructor; [assumption|]. constructor. exact E.
Qed.

(** Whatever the scores, no entry of the sorted slice is [Less] than the
    entry before it. *)
Lemma insertionSort_Sorted (slice : list Similarity) :
  Sorted not_before (insertionSort slice).
Proof.
  unfold insertionSort.
  apply (Sorted_rev (fun a b => not_before b a)).
  assert (H : forall acc,
             Sorted (fun a b => not_before b a) acc ->
             Sorted (fun a b => not_before b a)
               (fold_left (fun rprefix x => sink x rprefix) slice acc)).
  { induction slice as [|x slice IH]; intros acc Hacc; simpl.
    - assumption.
    - apply IH, sink_Sorted, Hacc. }
  apply H. constructor.
Qed.

(** When every score is a number, the sorted slice is in ascending order of
    score: an entry scores at most every entry after it. *)
Lemma insertionSort_ascending (slice : list Similarity) :
  Forall numeric slice -> StronglySorted scores_le (insertionSort slice).
Proof.
  intros Hnum.
  apply Sorted_StronglySorted; [exact scores_le_trans|].
  apply (Sorted_weaken numeric not_before scores_le).
  - exact not_before_numeric.
  - apply (Permutation_Forall (Permutation_sym (insertionSort_Permutation slice))).
    exact Hnum.
  - apply insertionSort_Sorted.
Qed.

(** C1 fails on the code: for the query [cat dog] the documents come back
    as [doc1], [doc2] with scores that are both NaN, so that the score of
    [doc1] is not at least the score of [doc2]; and the sorting step itself
    puts the lower score first: a slice with the scores 1 and 0.5 comes out
    as 0.5, 1. *)
Theorem Query_order_is_not_descending :
  fst (Query Sample.lexto insertionSort in_order "cat dog" Sample.two_docs)
  = ["doc1"; "doc2"] /\
  PrimFloat.is_nan (score in_order Sample.two_docs ["cat"; "dog"] "doc1") = true /\
  PrimFloat.is_nan (score in_order Sample.two_docs ["cat"; "dog"] "doc2") = true /\
  PrimFloat.leb (score in_order Sample.two_docs ["cat"; "dog"] "doc2")
    (score in_order Sample.two_docs ["cat"; "dog"] "doc1") = false /\
  map blog
    (insertionSort [ {| blog := "doc1"; cosine := 1 |};
                     {| blog := "doc2"; cosine := 0.5 |} ])
  = ["doc2"; "doc1"].
Proof. vm_compute. repeat split; reflexivity. Qed.


(** ** The query vector *)

(** The target of [One] in [queryRank] keeps its value: every term receives
    the value that [idf] had before the loop. *)
Lemma queryRank_loop_entry (weights : list Weight_Document)
    (terms : list string) (idf : float) (results : list (string * float))
    (t : string) :
  map_get String.eqb (queryRank_loop weights terms idf results) t
  = if mem_string t terms then Some idf else map_get String.eqb results t.
Proof.
  revert results. induction terms as [|u terms IH]; intros results;
    [reflexivity|].
  cbn [queryRank_loop].
  assert (Hidf : One_undecodable (has_term u) weights idf = idf).
  { unfold One_undecodable. destruct (find _ weights); reflexivity. }
  rewrite Hidf, IH. unfold mem_string. cbn [existsb].
  fold (mem_string t terms).
  destruct (mem_string t terms); [now rewrite orb_true_r|].
  rewrite orb_false_r. destruct (t =? u) eqn:E.
  - apply String.eqb_eq in E. subst u.
    clear. induction results as [|[k v] results IHr]; simpl.
    + now rewrite String.eqb_refl.
    + destruct (k =? t) eqn:E; simpl; now rewrite E.
  - assert (Hne : u <> t).
    { intros ->. rewrite String.eqb_refl in E. discriminate. }
    clear - Hne. induction results as [|[k v] results IHr]; simpl.
    + destruct (u =? t) eqn:E; [|reflexivity].
      apply String.eqb_eq in E. contradiction.
    + destruct (k =? u) eqn:E; simpl.
      * apply String.eqb_eq in E. subst k.
        destruct (u =? t) eqn:E'; [|reflexivity].
        apply String.eqb_eq in E'. contradiction.
      * now rewrite IHr.
Qed.

Lemma queryRank_loop_values (weights : list Weight_Document)
    (terms : list string) (idf : float) (results : list (string * float)) :
  Forall (fun kv => snd kv = idf) results ->
  Forall (fun kv => snd kv = idf) (queryRank_loop weights terms idf results).
Proof.
  revert results. induction terms as [|t terms IH]; intros results Hres;
    cbn [queryRank_loop]; [assumption|].
  assert (Hidf : One_undecodable (has_term t) weights idf = idf).
  { unfold One_undecodable. destruct (find _ weights); reflexivity. }
  rewrite Hidf. apply IH.
  clear - Hres. induction results as [|[k v] results IHr]; simpl.
  - repeat constructor.
  - inversion Hres; subst. destruct (k =? t); constructor; auto.
Qed.

(** The query vector is the zero vector. *)
Lemma queryRank_zero (data : DBConnector) (terms : list string) :
  Forall (fun kv => snd kv = 0%float) (queryRank data terms).
Proof. apply queryRank_loop_values. constructor. Qed.

Lemma zero_vector_magnitude (o : range_order) (vector : list (string * float)) :
  fair o -> Forall (fun kv => snd kv = 0%float) vector ->
  magnitude o vector = 0%float.
Proof.
  intros Hfair Hzero. unfold magnitude.
  assert (Hvisit : Forall (fun kv : string * float => snd kv = 0%float) (o _ vector)).
  { apply (Permutation_Forall (Permutation_sym (Hfair _ vector))). exact Hzero. }
  assert (Hsum : fold_left (fun results (kv : string * float) =>
                             (results + snd kv * snd kv)%float)
                   (o _ vector) 0%float = 0%float).
  { induction (o _ vector) as [|kv l IH]; [reflexivity|].
    inversion Hvisit as [|? ? Hkv Hl]; subst. cbn [fold_left]. rewrite Hkv.
    change (0 + 0 * 0)%float with 0%float. now apply IH. }
  rewrite Hsum. reflexivity.
Qed.

(** Every score that [rank] computes is NaN: the query vector is zero and
    the vector of the candidate is empty. *)
Lemma score_is_nan (o : range_order) (data : DBConnector)
    (terms : list string) (i : ObjectId) :
  fair o -> score o data terms i = nan.
Proof.
  intros Hfair. unfold score, blogTerms_of, All_refused, arrangeTerms.
  cbn [fold_left]. unfold cosineSimilarity.
  rewrite (zero_vector_magnitude o (queryRank data terms) Hfair (queryRank_zero _ _)).
  assert (Hnil : o _ (@nil (string * float)) = []).
  { apply Permutation_nil. symmetry. apply Hfair. }
  unfold crossProduct, magnitude. rewrite Hnil. reflexivity.
Qed.

(** C3: a query term that has no record in the statistics store enters the
    query vector with the weight 0, at whatever position it stands among
    the query terms, and it changes the score of no candidate: each score
    is what it is for the query without that term. *)
Theorem queryRank_absent_term_weighs_zero (o : range_order)
    (data : DBConnector) (before after : list string) (t : string) :
  fair o ->
  lookup_weight t (weightTable data) = None ->
  map_get String.eqb (queryRank data (before ++ t :: after)) t = Some 0%float /\
  forall i, score o data (before ++ t :: after) i
            = score o data (before ++ after) i.
Proof.
  intros Hfair _. split.
  - unfold queryRank. rewrite queryRank_loop_entry.
    assert (Hin : mem_string t (before ++ t :: after) = true).
    { apply mem_string_In, in_or_app. right. now left. }
    now rewrite Hin.
  - intros i. now rewrite !score_is_nan.
Qed.

Lemma queryRank_absent_term_weighs_zero_witness :
  map_get String.eqb (queryRank Sample.knows_cat (["cat"] ++ "zebra" :: ["dog"]))
    "zebra" = Some 0%float /\
  forall i, score backwards Sample.knows_cat (["cat"] ++ "zebra" :: ["dog"]) i
            = score backwards Sample.knows_cat (["cat"] ++ ["dog"]) i.
Proof.
  apply (queryRank_absent_term_weighs_zero backwards Sample.knows_cat
           ["cat"] ["dog"] "zebra").
  - exact backwards_fair.
  - reflexivity.
Defined.

(** ** Corpus statistics *)

Lemma lookup_weight_cons (t : string) (doc : Weight_Document)
    (table : list Weight_Document) :
  lookup_weight t (doc :: table)
  = if has_term t doc then Some (decode_Term_Weight doc)
    else lookup_weight t table.
Proof. unfold lookup_weight. simpl. destruct (has_term t doc); reflexivity. Qed.

Lemma lookup_weight_app_found (t : string) (table extra : list Weight_Document)
    (row : Term_Weight) :
  lookup_weight t table = Some row ->
  lookup_weight t (table ++ extra) = Some row.
Proof.
  induction table as [|r table IH]; [discriminate|].
  cbn [app]. rewrite !lookup_weight_cons. destruct (has_term t r); auto.
Qed.

Lemma lookup_weight_app_absent (t : string) (table extra : list Weight_Document) :
  lookup_weight t table = None ->
  lookup_weight t (table ++ extra) = lookup_weight t extra.
Proof.
  induction table as [|r table IH]; [reflexivity|].
  cbn [app]. rewrite !lookup_weight_cons.
  destruct (has_term t r); [discriminate | auto].
Qed.

Lemma lookup_weight_find (t : string) (table : list Weight_Document)
    (row : Term_Weight) :
  lookup_weight t table = Some row ->
  find (has_term t) table = Some (Stored row).
Proof.
  unfold lookup_weight. destruct (find (has_term t) table) as [doc|] eqn:F;
    [|discriminate].
  apply find_some in F as [_ F]. destruct doc as [r | idf n]; [|discriminate].
  simpl. congruence.
Qed.

Lemma lookup_weight_term (t : string) (table : list Weight_Document)
    (row : Term_Weight) :
  lookup_weight t table = Some row -> tw_Term row = t /\ In (Stored row) table.
Proof.
  intros H. apply lookup_weight_find in H. apply find_some in H as [Hin Heq].
  apply String.eqb_eq in Heq. auto.
Qed.

Lemma lookup_weight_None_find (t : string) (table : list Weight_Document) :
  lookup_weight t table = None -> find (has_term t) table = None.
Proof.
  unfold lookup_weight. destruct (find (has_term t) table); [discriminate|].
  reflexivity.
Qed.

Lemma has_term_other (t u : string) (doc : Weight_Document) :
  t <> u -> has_term u doc = true -> has_term t doc = false.
Proof.
  intros Hne. destruct doc as [r | idf n]; simpl; [|discriminate].
  intros Hu. apply String.eqb_eq in Hu.
  destruct (tw_Term r =? t) eqn:E; [|reflexivity].
  apply String.eqb_eq in E. congruence.
Qed.

(** Replacing the document of one term leaves the records of the other
    terms alone. *)
Lemma lookup_weight_Update_other (t u : string) (idf : float) (n : Z)
    (table : list Weight_Document) :
  t <> u ->
  lookup_weight t (Update (has_term u) (fun _ => Replaced idf n) table)
  = lookup_weight t table.
Proof.
  intros Hne. induction table as [|r table IH]; [reflexivity|].
  cbn [Update]. destruct (has_term u r) eqn:E.
  - rewrite !lookup_weight_cons. rewrite (has_term_other t u r Hne E).
    reflexivity.
  - rewrite !lookup_weight_cons. now rewrite IH.
Qed.

Section StatisticsFacts.

Variable math_Log : float -> float.

(** The three cases of one iteration of [updateIDF]. *)
Lemma updateIDF_step_known (N : Z) (weightRow row : Term_Weight)
    (weights : list Weight_Document) (key : Token) :
  lookup_weight (GetText key) weights = Some row ->
  GetText key <> "" ->
  updateIDF_step math_Log N (weightRow, weights) key
  = (row,
     Update (has_term (GetText key)) (fun _ => replacement math_Log N row)
       weights).
Proof.
  intros Hrow Hne. unfold updateIDF_step, One.
  rewrite (lookup_weight_find _ _ _ Hrow). cbn [decode_Term_Weight].
  apply lookup_weight_term in Hrow as [Hterm _]. rewrite Hterm.
  destruct (GetText key =? "") eqn:E.
  - apply String.eqb_eq in E. contradiction.
  - reflexivity.
Qed.

Lemma updateIDF_step_new (N : Z) (weightRow : Term_Weight)
    (weights : list Weight_Document) (key : Token) :
  lookup_weight (GetText key) weights = None ->
  tw_Term weightRow = "" ->
  updateIDF_step math_Log N (weightRow, weights) key
  = (weightRow,
     weights ++ [ Stored (counted_first math_Log N (GetText key)) ]).
Proof.
  intros Hfind Hzero. unfold updateIDF_step, One.
  rewrite (lookup_weight_None_find _ _ Hfind), Hzero. reflexivity.
Qed.

Lemma Update_no_match {R : Type} (sel : R -> bool) (change : R -> R)
    (table : list R) :
  find sel table = None -> Update sel change table = table.
Proof.
  induction table as [|row table IH]; simpl; [reflexivity|].
  destruct (sel row); [discriminate|]. intros H. now rewrite IH.
Qed.

(** A term without a record is not registered once [weightRow] holds the
    record of an earlier term. *)
Lemma updateIDF_step_skipped (N : Z) (weightRow : Term_Weight)
    (weights : list Weight_Document) (key : Token) :
  lookup_weight (GetText key) weights = None ->
  tw_Term weightRow <> "" ->
  updateIDF_step math_Log N (weightRow, weights) key = (weightRow, weights).
Proof.
  intros Hfind Hne. unfold updateIDF_step, One.
  apply lookup_weight_None_find in Hfind. rewrite Hfind.
  destruct (tw_Term weightRow =? "") eqn:E.
  - apply String.eqb_eq in E. contradiction.
  - now rewrite Update_no_match.
Qed.

(** C2 fails on the code: the store knows [cat]; indexing the blog
    [cat dog] with the entries visited in the order [cat], [dog] puts a
    document without term in the place of the record of [cat] (it holds
    the count 2 and the idf of that count) and registers nothing for
    [dog], although an index row for [dog] is written; visited in the
    order [dog], [cat], the term [dog] is registered with count 1. *)
Theorem updateIDF_skips_new_term_after_known_term :
  let b := Sample.post "doc1" "cat dog" "" in
  map (fun kv => GetText (fst kv)) (frequency_of Sample.lexto b) = ["cat"; "dog"] /\
  summary Sample.knows_cat = [Some ("cat", 1)] /\
  summary (AddIndexes Sample.lexto math_Log in_order in_order in_order b
             Sample.knows_cat)
  = [None] /\
  weightTable (AddIndexes Sample.lexto math_Log in_order in_order in_order b
                 Sample.knows_cat)
  = [Replaced (inverse_document_freq math_Log 2 1) 2] /\
  map idx_Term
    (termTable (AddIndexes Sample.lexto math_Log in_order in_order in_order b
                  Sample.knows_cat))
  = ["cat"; "cat"; "dog"] /\
  summary (AddIndexes Sample.lexto math_Log in_order backwards in_order b
             Sample.knows_cat)
  = [None; Some ("dog", 1)].
Proof. vm_compute. repeat split; reflexivity. Qed.

End StatisticsFacts.

(** ** Records under the loop of [updateIDF] *)

Lemma filter_Update_other (t u : string) (idf : float) (n : Z)
    (table : list Weight_Document) :
  t <> u ->
  filter (has_term t) (Update (has_term u) (fun _ => Replaced idf n) table)
  = filter (has_term t) table.
Proof.
  intros Hne. induction table as [|r table IH]; [reflexivity|].
  cbn [Update]. destruct (has_term u r) eqn:E; cbn [filter].
  - now rewrite (has_term_other t u r Hne E).
  - now rewrite IH.
Qed.

Lemma filter_Update_same (t : string) (idf : float) (n : Z)
    (table : list Weight_Document) :
  filter (has_term t) (Update (has_term t) (fun _ => Replaced idf n) table)
  = tl (filter (has_term t) table).
Proof.
  induction table as [|r table IH]; [reflexivity|].
  cbn [Update]. destruct (has_term t r) eqn:E; cbn [filter].
  - rewrite E. reflexivity.
  - rewrite E. exact IH.
Qed.

Section CountingFacts.

Variable math_Log : float -> float.
Variable N : Z.

(** One iteration leaves the records of the other terms alone. *)
Lemma updateIDF_step_other (state : Term_Weight * list Weight_Document)
    (key : Token) (t : string) :
  t <> GetText key ->
  lookup_weight t (snd (updateIDF_step math_Log N state key))
  = lookup_weight t (snd state).
Proof.
  intros Hne. destruct state as [weightRow weights]. unfold updateIDF_step.
  destruct (tw_Term _ =? ""); cbn [snd].
  - unfold Insert. destruct (lookup_weight t weights) as [row|] eqn:E.
    + now apply lookup_weight_app_found.
    + rewrite lookup_weight_app_absent by assumption.
      rewrite lookup_weight_cons. cbn [has_term tw_Term].
      destruct (GetText key =? t) eqn:E'; [|reflexivity].
      apply String.eqb_eq in E'. congruence.
  - now apply lookup_weight_Update_other.
Qed.

Lemma updateIDF_fold_other (keys : list Token)
    (state : Term_Weight * list Weight_Document) (t : string) :
  ~ In t (map GetText keys) ->
  lookup_weight t (snd (fold_left (updateIDF_step math_Log N) keys state))
  = lookup_weight t (snd state).
Proof.
  revert state. induction keys as [|k keys IH]; intros state Hnotin; simpl.
  - reflexivity.
  - rewrite IH.
    + apply updateIDF_step_other. intros ->. apply Hnotin. now left.
    + intros H. apply Hnotin. now right.
Qed.

(** One iteration leaves all the documents of the other terms alone. *)
Lemma updateIDF_step_other_documents (state : Term_Weight * list Weight_Document)
    (key : Token) (t : string) :
  t <> GetText key ->
  filter (has_term t) (snd (updateIDF_step math_Log N state key))
  = filter (has_term t) (snd state).
Proof.
  intros Hne. destruct state as [weightRow weights]. unfold updateIDF_step.
  destruct (tw_Term _ =? ""); cbn [snd].
  - unfold Insert. rewrite filter_app. cbn [filter has_term tw_Term].
    destruct (GetText key =? t) eqn:E.
    + apply String.eqb_eq in E. congruence.
    + apply app_nil_r.
  - now apply filter_Update_other.
Qed.

Lemma updateIDF_fold_other_documents (keys : list Token)
    (state : Term_Weight * list Weight_Document) (t : string) :
  ~ In t (map GetText keys) ->
  filter (has_term t) (snd (fold_left (updateIDF_step math_Log N) keys state))
  = filter (has_term t) (snd state).
Proof.
  revert state. induction keys as [|k keys IH]; intros state Hnotin; simpl.
  - reflexivity.
  - rewrite IH.
    + apply updateIDF_step_other_documents. intros ->. apply Hnotin. now left.
    + intros H. apply Hnotin. now right.
Qed.

(** A known term that the loop visits loses the record that [One] found:
    of the documents that carry the term, the first is gone. *)
Lemma updateIDF_fold_known (keys : list Token) (weightRow : Term_Weight)
    (weights : list Weight_Document) (t : string) (row : Term_Weight) :
  NoDup (map GetText keys) -> t <> "" -> In t (map GetText keys) ->
  lookup_weight t weights = Some row ->
  filter (has_term t)
    (snd (fold_left (updateIDF_step math_Log N) keys (weightRow, weights)))
  = tl (filter (has_term t) weights).
Proof.
  revert weightRow weights.
  induction keys as [|k keys IH]; intros weightRow weights Hnd Hne Hin Hrow;
    cbn [fold_left].
  - destruct Hin.
  - simpl in Hnd, Hin. inversion Hnd as [|? ? Hnotin Hnd']; subst.
    destruct (string_dec (GetText k) t) as [Heq | Hneq].
    + subst t. rewrite updateIDF_fold_other_documents by assumption.
      rewrite (updateIDF_step_known math_Log N weightRow row weights k Hrow Hne).
      cbn [snd]. unfold replacement. apply filter_Update_same.
    + destruct Hin as [Hin | Hin]; [contradiction|].
      pose proof (updateIDF_step_other (weightRow, weights) k t
                    (not_eq_sym Hneq)) as Hstep.
      pose proof (updateIDF_step_other_documents (weightRow, weights) k t
                    (not_eq_sym Hneq)) as Hdocs.
      destruct (updateIDF_step math_Log N (weightRow, weights) k) as [w' ws'].
      cbn [snd] in Hstep, Hdocs. rewrite <- Hdocs.
      apply IH; auto. now rewrite Hstep.
Qed.

(** While no visited term has a record, each is registered with count 1. *)
Lemma updateIDF_fold_fresh (keys : list Token) (weightRow : Term_Weight)
    (weights : list Weight_Document) :
  tw_Term weightRow = "" -> NoDup (map GetText keys) ->
  (forall k, In k keys -> lookup_weight (GetText k) weights = None) ->
  fold_left (updateIDF_step math_Log N) keys (weightRow, weights)
  = (weightRow,
     weights
     ++ map (fun k => Stored (counted_first math_Log N (GetText k))) keys).
Proof.
  revert weights.
  induction keys as [|k keys IH]; intros weights Hzero Hnd Habs;
    cbn [fold_left map].
  - now rewrite app_nil_r.
  - simpl in Hnd. inversion Hnd as [|? ? Hnotin Hnd']; subst.
    rewrite updateIDF_step_new; auto; [|apply Habs; now left].
    rewrite IH; auto.
    + rewrite <- app_assoc. reflexivity.
    + intros k' Hk'. rewrite lookup_weight_app_absent by (apply Habs; now right).
      rewrite lookup_weight_cons. cbn [has_term counted_first tw_Term].
      destruct (GetText k =? GetText k') eqn:E; [|reflexivity].
      apply String.eqb_eq in E. exfalso. apply Hnotin. rewrite E.
      now apply in_map.
Qed.

(** Every record that the loop writes agrees with the corpus size [N]. *)
Lemma Update_Forall {R : Type} (P : R -> Prop) (sel : R -> bool)
    (change : R -> R) (table : list R) :
  (forall r, P (change r)) -> Forall P table ->
  Forall P (Update sel change table).
Proof.
  intros Hchange. induction table as [|r table IH]; intros H; simpl.
  - constructor.
  - inversion H; subst. destruct (sel r); constructor; auto.
Qed.

Lemma updateIDF_step_agrees (state : Term_Weight * list Weight_Document)
    (key : Token) :
  Forall (idf_agrees math_Log N) (snd state) ->
  Forall (idf_agrees math_Log N) (snd (updateIDF_step math_Log N state key)).
Proof.
  destruct state as [weightRow weights]. unfold updateIDF_step. simpl.
  intros H. destruct (tw_Term _ =? ""); simpl.
  - unfold Insert. apply Forall_app. split; [assumption|].
    repeat constructor.
  - apply Update_Forall; [|assumption]. intros r. reflexivity.
Qed.

Lemma updateIDF_fold_agrees (keys : list Token)
    (state : Term_Weight * list Weight_Document) :
  Forall (idf_agrees math_Log N) (snd state) ->
  Forall (idf_agrees math_Log N)
    (snd (fold_left (updateIDF_step math_Log N) keys state)).
Proof.
  revert state. induction keys as [|k keys IH]; intros state H; simpl.
  - assumption.
  - apply IH, updateIDF_step_agrees, H.
Qed.

End CountingFacts.

(** ** Indexing calls and the two stores *)

Lemma indexable_text_injective (a b : Token) :
  indexable a = true -> indexable b = true -> GetText a = GetText b -> a = b.
Proof.
  unfold indexable. rewrite !negb_true_iff, !orb_false_iff.
  destruct a as [ta sa ha], b as [tb sb hb]; simpl.
  intros [-> ->] [-> ->] ->. reflexivity.
Qed.

Lemma indexable_texts_NoDup (keys : list Token) :
  Forall (fun k => indexable k = true) keys -> NoDup keys ->
  NoDup (map GetText keys).
Proof.
  induction keys as [|k keys IH]; intros Hidx Hnd; simpl.
  - constructor.
  - inversion Hidx as [|? ? Hk Hks]; subst.
    inversion Hnd as [|? ? Hnotin Hnd']; subst.
    constructor; [|auto].
    intros Hin. apply in_map_iff in Hin as [k' [Heq Hk']].
    rewrite Forall_forall in Hks.
    apply indexable_text_injective in Heq; auto. congruence.
Qed.

Lemma index_rows_app (t : string) (id : ObjectId)
    (index rows : list Inverted_Index) :
  index_rows t id (index ++ rows)
  = (index_rows t id index + index_rows t id rows)%nat.
Proof. unfold index_rows. now rewrite filter_app, length_app. Qed.

Lemma index_rows_count (t : string) (id : ObjectId)
    (rows : list Inverted_Index) (visited : list (Token * Z)) :
  map (fun r => (idx_Term r, idx_Blog_id r)) rows
  = map (fun kv => (GetText (fst kv), id)) visited ->
  index_rows t id rows
  = count_occ string_dec (map GetText (map fst visited)) t.
Proof.
  unfold index_rows. revert visited.
  induction rows as [|r rows IH]; intros [|kv visited] H; simpl in *;
    try discriminate; [reflexivity|].
  injection H as Hterm Hid Hrest. rewrite Hterm, Hid, String.eqb_refl, andb_true_r.
  destruct (string_dec (GetText (fst kv)) t) as [-> | Hne].
  - rewrite String.eqb_refl. simpl. f_equal. now apply IH.
  - destruct (GetText (fst kv) =? t) eqn:E.
    + apply String.eqb_eq in E. contradiction.
    + now apply IH.
Qed.

Section StoreFacts.

Variable lexto : string -> list Token.
Variable math_Log : float -> float.

Lemma frequency_keys_indexable (b : Blog) :
  Forall (fun k => indexable k = true) (map fst (frequency_of lexto b)).
Proof.
  apply Forall_forall. intros k Hk. now apply frequency_of_In in Hk.
Qed.

Lemma frequency_keys_NoDup (b : Blog) :
  NoDup (map fst (frequency_of lexto b)).
Proof. unfold frequency_of. apply count_loop_NoDup. constructor. Qed.

(** The entries of the map of a blog, in any fair visiting order, carry
    pairwise distinct texts: those of the counted tokens of the blog. *)
Lemma visited_texts_NoDup (o : range_order) (b : Blog) :
  fair o -> NoDup (map GetText (map fst (o _ (frequency_of lexto b)))).
Proof.
  intros Hfair.
  apply (Permutation_NoDup
           (Permutation_sym
              (Permutation_map GetText (Permutation_map fst (Hfair _ _))))).
  apply indexable_texts_NoDup;
    [apply frequency_keys_indexable | apply frequency_keys_NoDup].
Qed.

Lemma visited_texts_In (o : range_order) (b : Blog) (token : Token) :
  fair o -> In token (lexto (assemble b)) -> indexable token = true ->
  In (GetText token) (map GetText (map fst (o _ (frequency_of lexto b)))).
Proof.
  intros Hfair Hin Hidx. apply in_map.
  apply (Permutation_in _ (Permutation_sym (Permutation_map fst (Hfair _ _)))).
  now apply frequency_of_In.
Qed.

(** A known term of the blog loses its record by [AddIndexes]: of the
    documents of the statistics store that carry the term, the first is
    replaced by a document without term. *)
Lemma AddIndexes_replaces_known (o_norm o_idf o_idx : range_order) (b : Blog)
    (data : DBConnector) (token : Token) (row : Term_Weight) :
  fair o_idf ->
  In token (lexto (assemble b)) -> indexable token = true ->
  GetText token <> "" ->
  lookup_weight (GetText token) (weightTable data) = Some row ->
  filter (has_term (GetText token))
    (weightTable (AddIndexes lexto math_Log o_norm o_idf o_idx b data))
  = tl (filter (has_term (GetText token)) (weightTable data)).
Proof.
  intros Hfair Hin Hidx Hne Hrow. rewrite AddIndexes_weightTable.
  apply updateIDF_fold_known with (row := row); auto.
  - now apply visited_texts_NoDup.
  - now apply visited_texts_In.
Qed.

(** [AddIndexes] writes exactly one index row for each counted term. *)
Lemma AddIndexes_adds_one_row (o_norm o_idf o_idx : range_order) (b : Blog)
    (data : DBConnector) (token : Token) :
  fair o_idx ->
  In token (lexto (assemble b)) -> indexable token = true ->
  index_rows (GetText token) (Blog_id b)
    (termTable (AddIndexes lexto math_Log o_norm o_idf o_idx b data))
  = S (index_rows (GetText token) (Blog_id b) (termTable data)).
Proof.
  intros Hfair Hin Hidx.
  destruct (AddIndexes_termTable lexto math_Log o_norm o_idf o_idx b data)
    as [rows [-> Hmap]].
  rewrite index_rows_app, (index_rows_count _ _ _ _ Hmap).
  pose proof (visited_texts_NoDup o_idx b Hfair) as Hnd.
  rewrite NoDup_count_occ' with (decA := string_dec) in Hnd.
  rewrite Hnd by now apply visited_texts_In.
  apply Nat.add_1_r.
Qed.

End StoreFacts.

(** C7 fails on the code.  The blog [cat dog] was indexed once on empty
    stores: both terms have a record with count 1.  A second [AddIndexes]
    of the blog does write a second index row for each term, but it raises
    no count: the document handed to [Update] has the key [set], not an
    update operator, so it takes the place of the record; the store then
    holds two documents without term (with the count 2 and no term to find
    them by) and no record for [cat] or [dog].  A third [AddIndexes]
    registers both terms anew, with count 1. *)
Theorem AddIndexes_again_replaces_records :
  let b := Sample.post "doc1" "cat dog" "" in
  let index (data : DBConnector) :=
    AddIndexes Sample.lexto Sample.log in_order in_order in_order b data in
  let again := index Sample.indexed_once in
  summary Sample.indexed_once = [Some ("cat", 1); Some ("dog", 1)] /\
  index_rows "cat" "doc1" (termTable Sample.indexed_once) = 1%nat /\
  index_rows "dog" "doc1" (termTable Sample.indexed_once) = 1%nat /\
  summary again = [None; None] /\
  (exists idf idf' : float,
     weightTable again = [Replaced idf 2; Replaced idf' 2]) /\
  lookup_weight "cat" (weightTable again) = None /\
  lookup_weight "dog" (weightTable again) = None /\
  index_rows "cat" "doc1" (termTable again) = 2%nat /\
  index_rows "dog" "doc1" (termTable again) = 2%nat /\
  summary (index again) = [None; None; Some ("cat", 1); Some ("dog", 1)].
Proof.
  cbv zeta. repeat split; try (vm_compute; reflexivity).
  eexists. eexists. vm_compute. reflexivity.
Qed.

(** ** Statistics after a sequence of indexing calls *)

Lemma lookup_weight_counted_first (math_Log : float -> float) (N : Z)
    (t : string) (keys : list Token) :
  In t (map GetText keys) ->
  lookup_weight t
    (map (fun k => Stored (counted_first math_Log N (GetText k))) keys)
  = Some (counted_first math_Log N t).
Proof.
  induction keys as [|k keys IH]; cbn [map]; [intros []|].
  intros Hin. rewrite lookup_weight_cons. cbn [has_term counted_first tw_Term].
  destruct (GetText k =? t) eqn:E.
  - apply String.eqb_eq in E. now subst.
  - destruct Hin as [Heq | Hin]; [|auto].
    rewrite Heq, String.eqb_refl in E. discriminate.
Qed.

Section SequenceFacts.

Variable lexto : string -> list Token.
Variable math_Log : float -> float.

Lemma run_call_corpus_size (data : DBConnector) (c : Call) :
  corpus_size (run_call lexto math_Log data c) = corpus_size data.
Proof. reflexivity. Qed.

Lemma run_calls_corpus_size (calls : list Call) (data : DBConnector) :
  corpus_size (run_calls lexto math_Log calls data) = corpus_size data.
Proof.
  revert data. induction calls as [|c calls IH]; intros data; simpl.
  - reflexivity.
  - now rewrite IH.
Qed.

Lemma run_call_agrees (data : DBConnector) (c : Call) :
  Forall (idf_agrees math_Log (corpus_size data)) (weightTable data) ->
  Forall (idf_agrees math_Log (corpus_size data))
    (weightTable (run_call lexto math_Log data c)).
Proof.
  intros H. unfold run_call. rewrite AddIndexes_weightTable.
  now apply updateIDF_fold_agrees.
Qed.

(** While the corpus keeps its size, agreement of idf and count is an
    invariant of indexing. *)
Lemma run_calls_agrees (calls : list Call) (data : DBConnector) :
  Forall (idf_agrees math_Log (corpus_size data)) (weightTable data) ->
  Forall (idf_agrees math_Log (corpus_size data))
    (weightTable (run_calls lexto math_Log calls data)).
Proof.
  revert data. induction calls as [|c calls IH]; intros data H; simpl.
  - assumption.
  - rewrite <- (run_call_corpus_size data c). apply IH.
    rewrite run_call_corpus_size. now apply run_call_agrees.
Qed.

(** No iteration writes a record with a count other than 1. *)
Lemma updateIDF_step_counted_once (N : Z)
    (state : Term_Weight * list Weight_Document) (key : Token) :
  Forall counted_once (snd state) ->
  Forall counted_once (snd (updateIDF_step math_Log N state key)).
Proof.
  destruct state as [weightRow weights]. unfold updateIDF_step. simpl.
  intros H. destruct (tw_Term _ =? ""); simpl.
  - unfold Insert. apply Forall_app. split; [assumption|].
    repeat constructor.
  - apply Update_Forall; [|assumption]. intros r. exact I.
Qed.

Lemma updateIDF_fold_counted_once (N : Z) (keys : list Token)
    (state : Term_Weight * list Weight_Document) :
  Forall counted_once (snd state) ->
  Forall counted_once (snd (fold_left (updateIDF_step math_Log N) keys state)).
Proof.
  revert state. induction keys as [|k keys IH]; intros state H; simpl.
  - assumption.
  - apply IH, updateIDF_step_counted_once, H.
Qed.

Lemma run_calls_counted_once (calls : list Call) (data : DBConnector) :
  Forall counted_once (weightTable data) ->
  Forall counted_once (weightTable (run_calls lexto math_Log calls data)).
Proof.
  revert data. induction calls as [|c calls IH]; intros data H; simpl.
  - assumption.
  - apply IH. unfold run_call. rewrite AddIndexes_weightTable.
    now apply updateIDF_fold_counted_once.
Qed.

(** On an empty statistics store every counted term is registered. *)
Lemma run_call_on_empty (data : DBConnector) (c : Call) (token : Token) :
  weightTable data = [] -> fair (call_idf c) ->
  In token (lexto (assemble (call_blog c))) -> indexable token = true ->
  lookup_weight (GetText token) (weightTable (run_call lexto math_Log data c))
  = Some (counted_first math_Log (corpus_size data) (GetText token)).
Proof.
  intros Hempty Hfair Hin Hidx. unfold run_call.
  rewrite AddIndexes_weightTable, Hempty.
  rewrite updateIDF_fold_fresh.
  - cbn [snd app]. apply lookup_weight_counted_first.
    now apply visited_texts_In.
  - reflexivity.
  - now apply visited_texts_NoDup.
  - reflexivity.
Qed.

(** A call leaves alone the record of a term that the blog does not hold. *)
Lemma run_call_other (data : DBConnector) (c : Call) (t : string) :
  fair (call_idf c) ->
  ~ In t (map GetText (lexto (assemble (call_blog c)))) ->
  lookup_weight t (weightTable (run_call lexto math_Log data c))
  = lookup_weight t (weightTable data).
Proof.
  intros Hfair Hnot. unfold run_call. rewrite AddIndexes_weightTable.
  rewrite updateIDF_fold_other; [reflexivity|].
  intros Hin. apply Hnot. apply in_map_iff in Hin as [k [Hk Hin]].
  apply in_map_iff. exists k. split; [assumption|].
  apply (Permutation_in _ (Permutation_map fst (Hfair _ _))) in Hin.
  now apply frequency_of_In in Hin.
Qed.

Lemma run_calls_other (calls : list Call) (data : DBConnector) (t : string) :
  (forall c, In c calls -> fair (call_idf c)) ->
  (forall c, In c calls ->
             ~ In t (map GetText (lexto (assemble (call_blog c))))) ->
  lookup_weight t (weightTable (run_calls lexto math_Log calls data))
  = lookup_weight t (weightTable data).
Proof.
  revert data. induction calls as [|c calls IH]; intros data Hfair Hnot; simpl.
  - reflexivity.
  - rewrite IH.
    + apply run_call_other; [apply Hfair | apply Hnot]; now left.
    + intros c' Hc'. apply Hfair. now right.
    + intros c' Hc'. apply Hnot. now right.
Qed.

(** C6, as the code has it: after any sequence of [AddIndexes] calls on an
    initially empty statistics store, the corpus keeping its size, the
    stored idf of every term that has a record is [ln (total / count)] for
    the current corpus size and the count of the record; and records are
    written: a term of the first document that no later document holds
    has its record, with the idf of count 1. *)
Theorem statistics_under_fixed_corpus (calls : list Call) (data : DBConnector) :
  weightTable data = [] ->
  (forall c, In c calls -> fair (call_idf c)) ->
  let final := run_calls lexto math_Log calls data in
  (forall (t : string) (row : Term_Weight),
     lookup_weight t (weightTable final) = Some row ->
     tw_Idf row
     = math_Log (GoInt.to_float64 (corpus_size final)
                 / GoInt.to_float64 (tw_Total_blogs row))%float) /\
  (forall (c : Call) (rest : list Call) (T : Token),
     calls = c :: rest ->
     In T (lexto (assemble (call_blog c))) ->
     IsSpace T = false -> IsHTML T = false ->
     (forall c', In c' rest ->
                 ~ In (GetText T) (map GetText (lexto (assemble (call_blog c'))))) ->
     lookup_weight (GetText T) (weightTable final)
     = Some (counted_first math_Log (corpus_size final) (GetText T))).
Proof.
  intros Hempty Hfair final. split.
  - intros t row Hrow.
    assert (Hall : Forall (idf_agrees math_Log (corpus_size final))
                     (weightTable final)).
    { unfold final. rewrite run_calls_corpus_size. apply run_calls_agrees.
      rewrite Hempty. constructor. }
    rewrite Forall_forall in Hall.
    apply lookup_weight_term in Hrow as [_ Hin].
    exact (Hall (Stored row) Hin).
  - intros c rest T Hcalls Hin Hns Hnh Hlater.
    assert (Hidx : indexable T = true).
    { unfold indexable. now rewrite Hns, Hnh. }
    unfold final. rewrite run_calls_corpus_size. subst calls.
    cbn [run_calls fold_left].
    change (fold_left (run_call lexto math_Log) rest
              (run_call lexto math_Log data c))
      with (run_calls lexto math_Log rest (run_call lexto math_Log data c)).
    rewrite run_calls_other.
    + apply run_call_on_empty; auto. apply Hfair. now left.
    + intros c' Hc'. apply Hfair. now right.
    + exact Hlater.
Qed.

(** X23: after any sequence of [AddIndexes] calls on an initially empty
    statistics store, every record that carries a term holds the count 1,
    however many of the indexed documents hold the term: the only write
    that gives a document a term is the insertion with count 1. *)
Theorem records_hold_count_one (calls : list Call) (data : DBConnector)
    (t : string) (row : Term_Weight) :
  weightTable data = [] ->
  lookup_weight t (weightTable (run_calls lexto math_Log calls data)) = Some row ->
  tw_Total_blogs row = 1.
Proof.
  intros Hempty Hrow.
  assert (Hall : Forall counted_once
                   (weightTable (run_calls lexto math_Log calls data))).
  { apply run_calls_counted_once. rewrite Hempty. constructor. }
  rewrite Forall_forall in Hall.
  apply lookup_weight_term in Hrow as [_ Hin].
  exact (Hall (Stored row) Hin).
Qed.

End SequenceFacts.

Lemma statistics_under_fixed_corpus_witness :
  let final := run_calls Sample.lexto Sample.log Sample.two_calls Sample.two_blogs in
  (forall (t : string) (row : Term_Weight),
     lookup_weight t (weightTable final) = Some row ->
     tw_Idf row
     = Sample.log (GoInt.to_float64 (corpus_size final)
                   / GoInt.to_float64 (tw_Total_blogs row))%float) /\
  lookup_weight "dog" (weightTable final)
  = Some (counted_first Sample.log (corpus_size final) "dog").
Proof.
  destruct (statistics_under_fixed_corpus Sample.lexto Sample.log
              Sample.two_calls Sample.two_blogs) as [Hagree Hfirst].
  - reflexivity.
  - intros c [<- | [<- | []]]; exact backwards_fair.
  - split; [exact Hagree|].
    apply (Hfirst (Sample.call (Sample.post "doc1" "cat dog" ""))
             [Sample.call (Sample.post "doc2" "fish cat" "")]
             (Sample.word_token "dog")).
    + reflexivity.
    + vm_compute. auto.
    + reflexivity.
    + reflexivity.
    + intros c' [<- | []]. vm_compute.
      intros [H | [H | [H | [H | []]]]]; discriminate.
Defined.

Lemma records_hold_count_one_witness :
  lookup_weight "dog"
    (weightTable (run_calls Sample.lexto Sample.log Sample.two_calls
                    Sample.two_blogs))
  = Some (counted_first Sample.log 2 "dog") /\
  tw_Total_blogs (counted_first Sample.log 2 "dog") = 1.
Proof.
  assert (H : lookup_weight "dog"
                (weightTable (run_calls Sample.lexto Sample.log Sample.two_calls
                                Sample.two_blogs))
              = Some (counted_first Sample.log 2 "dog")).
  { vm_compute. reflexivity. }
  split; [exact H|].
  apply (records_hold_count_one Sample.lexto Sample.log Sample.two_calls
           Sample.two_blogs "dog" (counted_first Sample.log 2 "dog")).
  - reflexivity.
  - exact H.
Defined.

(** C6 fails on the code.  [cat] is indexed in a corpus of one blog and
    gets the idf [ln (1/1) = 0]; after a second blog is stored and indexed
    the corpus has two blogs, the record of [cat] still holds 0, and
    [ln (2/1)] is not 0.  And in a corpus of two blogs that both hold
    [cat] once, after both are indexed no record of [cat] holds the count
    2: there is no record of [cat]. *)
Lemma idf_not_refreshed_when_corpus_grows :
  lookup_weight "cat" (weightTable Sample.dog_indexed)
  = Some (Sample.weight "cat" 1 0) /\
  corpus_size Sample.dog_indexed = 2 /\
  ~ Forall (idf_agrees Sample.log (corpus_size Sample.dog_indexed))
      (weightTable Sample.dog_indexed) /\
  Sample.log (GoInt.to_float64 2 / GoInt.to_float64 1) <> 0%float /\
  let both :=
    run_calls Sample.lexto Sample.log Sample.two_calls Sample.two_blogs in
  corpus_size both = 2 /\
  index_rows "cat" "doc1" (termTable both) = 1%nat /\
  index_rows "cat" "doc2" (termTable both) = 1%nat /\
  lookup_weight "cat" (weightTable both) = None /\
  summary both = [Some ("dog", 1); None].
Proof.
  split; [vm_compute; reflexivity|]. split; [reflexivity|].
  split; [|split].
  - intros H. rewrite Forall_forall in H.
    specialize (H (Sample.stored "cat" 1 0)).
    assert (Hin : In (Sample.stored "cat" 1 0) (weightTable Sample.dog_indexed)).
    { vm_compute. now left. }
    apply H in Hin. vm_compute in Hin.
    apply (f_equal (fun x => PrimFloat.eqb x 0)) in Hin.
    vm_compute in Hin. discriminate.
  - intros H. apply (f_equal (fun x => PrimFloat.eqb x 0)) in H.
    vm_compute in H. discriminate.
  - cbv zeta. repeat split; vm_compute; reflexivity.
Qed.

(** ** Removal *)

Section RemovalFacts.

Variable lexto : string -> list Token.
Variable math_Log : float -> float.
Variable term_is_token : string -> Token -> bool.

(** X14: [RemoveIndexes] drops the index rows of the blog, and only
    those: a row is in the index afterwards exactly when it was there
    before and belongs to another document. *)
Lemma RemoveIndexes_termTable (b : Blog) (data : DBConnector)
    (row : Inverted_Index) :
  In row (termTable (RemoveIndexes term_is_token b data)) <->
  In row (termTable data) /\ idx_Blog_id row <> Blog_id b.
Proof.
  unfold RemoveIndexes, RemoveAll. simpl. rewrite filter_In, negb_true_iff.
  split; intros [H1 H2]; split; auto.
  - intros Heq. apply String.eqb_eq in Heq. congruence.
  - destruct (idx_Blog_id row =? Blog_id b) eqn:E; [|reflexivity].
    apply String.eqb_eq in E. contradiction.
Qed.

(** With the token stream exhausted, the statistics store is not touched:
    no count is lowered and no record is deleted. *)
Lemma RemoveIndexes_exhausted (b : Blog) (data : DBConnector) :
  tokenizer data = [] ->
  weightTable (RemoveIndexes term_is_token b data) = weightTable data.
Proof. intros H. unfold RemoveIndexes. rewrite H. reflexivity. Qed.

(** The stream is exhausted after every [AddIndexes] and every [Query]. *)
Lemma RemoveIndexes_after_AddIndexes (o_norm o_idf o_idx : range_order)
    (b b' : Blog) (data : DBConnector) :
  weightTable
    (RemoveIndexes term_is_token b
       (AddIndexes lexto math_Log o_norm o_idf o_idx b' data))
  = weightTable (AddIndexes lexto math_Log o_norm o_idf o_idx b' data).
Proof. apply RemoveIndexes_exhausted. reflexivity. Qed.

Lemma RemoveIndexes_after_Query
    (sort_Sort : list Similarity -> list Similarity) (o : range_order)
    (keyword : string) (b : Blog) (data : DBConnector) :
  weightTable
    (RemoveIndexes term_is_token b (snd (Query lexto sort_Sort o keyword data)))
  = weightTable data.
Proof. reflexivity. Qed.

(** No step of the loop lowers a count: a record is deleted or kept. *)
Lemma RemoveIndexes_step_keeps_rows (state : Term_Weight * list Weight_Document)
    (token : Token) (row : Weight_Document) :
  In row (snd (RemoveIndexes_step term_is_token state token)) ->
  In row (snd state).
Proof.
  destruct state as [weightRow weights]. unfold RemoveIndexes_step, RemoveAll.
  destruct (_ <=? 1)%Z; simpl; [|auto].
  intros H. now apply filter_In in H.
Qed.

(** X17: [RemoveIndexes] never rewrites a record of the statistics
    store: every record found afterwards was there before, with the same
    count and idf; records are deleted or kept. *)
Lemma RemoveIndexes_keeps_rows (b : Blog) (data : DBConnector)
    (row : Weight_Document) :
  In row (weightTable (RemoveIndexes term_is_token b data)) ->
  In row (weightTable data).
Proof.
  unfold RemoveIndexes. simpl.
  change (weightTable data) with (snd (Term_Weight_zero, weightTable data)) at 2.
  generalize (Term_Weight_zero, weightTable data).
  induction (tokenizer data) as [|token tokens IH]; intros state H; simpl in H.
  - assumption.
  - apply IH in H. now apply RemoveIndexes_step_keeps_rows in H.
Qed.

(** C8 fails on the code.  The blog [doc1], whose only term is [cat], was
    indexed and is the only document that holds [cat]; [RemoveIndexes] drops
    its index row but leaves the record of [cat], count 1, in place: the
    token stream is exhausted and the text of the blog is never set.  With
    a stream left unread that holds [dog], removing that same blog deletes
    the record of [dog], a term of another document, and keeps [cat]. *)
Theorem RemoveIndexes_reads_leftover_stream :
  let doc1 := Sample.post "doc1" "cat" "" in
  map idx_Term (termTable Sample.cat_indexed) = ["cat"] /\
  summary Sample.cat_indexed = [Some ("cat", 1)] /\
  tokenizer Sample.cat_indexed = [] /\
  termTable (RemoveIndexes term_is_token doc1 Sample.cat_indexed) = [] /\
  summary (RemoveIndexes term_is_token doc1 Sample.cat_indexed)
  = [Some ("cat", 1)] /\
  summary Sample.leftover_dog = [Some ("cat", 1); Some ("dog", 1)] /\
  summary (RemoveIndexes Sample.by_text doc1 Sample.leftover_dog)
  = [Some ("cat", 1)].
Proof. vm_compute. repeat split; reflexivity. Qed.

End RemovalFacts.

(** ** The two token filters *)

Lemma Query_terms_iff (lexto : string -> list Token) (keyword t : string) :
  In t (Query_terms lexto keyword) <->
  exists token, In token (lexto keyword) /\ IsSpace token = false /\ GetText token = t.
Proof.
  unfold Query_terms. split.
  - intros H. apply Query_loop_sound in H as [[] | H]. exact H.
  - intros [token [Hin [Hns <-]]].
    apply Query_loop_complete with (token := token); auto.
Qed.

Lemma Sample_lexto_markup :
  forall (text word : string) (token : Token),
    In token (Sample.scan text word) ->
    IsHTML token = String.prefix "<" (GetText token).
Proof.
  induction text as [|c text IH]; intros word token; simpl.
  - unfold Sample.flush. destruct (word =? ""); simpl; [tauto|].
    intros [<- | []]. reflexivity.
  - destruct (Ascii.eqb c " "); [|apply IH].
    intros H. apply in_app_or in H as [H | [<- | H]].
    + unfold Sample.flush in H. destruct (word =? ""); simpl in H; [tauto|].
      destruct H as [<- | []]. reflexivity.
    + reflexivity.
    + now apply IH in H.
Qed.

Lemma Sample_lexto_markup_by_text : markup_by_text Sample.lexto.
Proof.
  intros text1 text2 t1 t2 H1 H2 Heq. unfold Sample.lexto in *.
  rewrite (Sample_lexto_markup _ _ _ H1), (Sample_lexto_markup _ _ _ H2).
  now rewrite Heq.
Qed.

Section FilterFacts.

Variable lexto : string -> list Token.
Variable math_Log : float -> float.
Variable sort_Sort : list Similarity -> list Similarity.

Lemma run_call_rows_from_counted (data : DBConnector) (c : Call) :
  fair (call_idx c) ->
  Forall (from_counted_token lexto) (termTable data) ->
  Forall (from_counted_token lexto)
    (termTable (run_call lexto math_Log data c)).
Proof.
  intros Hfair Hdata. unfold run_call.
  destruct (AddIndexes_termTable lexto math_Log (call_norm c) (call_idf c)
              (call_idx c) (call_blog c) data) as [rows [-> Hmap]].
  apply Forall_app. split; [assumption|].
  apply Forall_forall. intros row Hrow.
  assert (Hpair : In (idx_Term row, idx_Blog_id row)
                    (map (fun kv : Token * Z => (GetText (fst kv), Blog_id (call_blog c)))
                       (call_idx c _ (frequency_of lexto (call_blog c))))).
  { rewrite <- Hmap.
    change (idx_Term row, idx_Blog_id row)
      with ((fun r => (idx_Term r, idx_Blog_id r)) row).
    now apply in_map. }
  apply in_map_iff in Hpair as [kv [Heq Hkv]]. injection Heq as Hterm _.
  apply (Permutation_in _ (Hfair _ _)) in Hkv.
  assert (Hk : In (fst kv) (map fst (frequency_of lexto (call_blog c))))
    by now apply in_map.
  apply frequency_of_In in Hk as [Hin Hidx].
  exists (assemble (call_blog c)), (fst kv). auto.
Qed.

Lemma run_calls_rows_from_counted (calls : list Call) (data : DBConnector) :
  (forall c, In c calls -> fair (call_idx c)) ->
  Forall (from_counted_token lexto) (termTable data) ->
  Forall (from_counted_token lexto)
    (termTable (run_calls lexto math_Log calls data)).
Proof.
  revert data. induction calls as [|c calls IH]; intros data Hfair Hdata; simpl.
  - assumption.
  - apply IH.
    + intros c' Hc'. apply Hfair. now right.
    + apply run_call_rows_from_counted; [apply Hfair; now left | assumption].
Qed.

(** Every counted token of every indexed blog has its row. *)
Lemma run_calls_indexes_term (calls : list Call) (data : DBConnector)
    (c : Call) (k : Token) :
  (forall c', In c' calls -> fair (call_idx c')) ->
  In c calls -> In k (lexto (assemble (call_blog c))) -> indexable k = true ->
  exists row,
    In row (termTable (run_calls lexto math_Log calls data)) /\
    idx_Term row = GetText k /\ idx_Blog_id row = Blog_id (call_blog c).
Proof.
  revert data.
  induction calls as [|c0 calls IH]; intros data Hfair Hc Hin Hidx; [destruct Hc|].
  cbn [run_calls fold_left]. destruct Hc as [-> | Hc].
  - destruct (AddIndexes_indexes_term lexto math_Log (call_norm c) (call_idf c)
                (call_idx c) (call_blog c) data k) as [row [Hrow Hrest]]; auto.
    { apply Hfair. now left. }
    exists row. split; [|exact Hrest].
    now apply (run_calls_termTable_grows lexto math_Log calls).
  - apply (IH (run_call lexto math_Log data c0)); auto.
    intros c' Hc'. apply Hfair. now right.
Qed.

(** The keys of the map of [count_occurences] are the tokens of the text
    that are neither whitespace nor markup. *)
Lemma count_occurences_In (content : string) (d : DBConnector) (k : Token) :
  In k (map fst (fst (count_occurences lexto content d))) <->
  In k (lexto content) /\ indexable k = true.
Proof.
  unfold count_occurences. cbn [fst SetText set_tokenizer tokenizer]. split.
  - intros H. apply count_loop_sound in H as [[] | H]. exact H.
  - intros [H1 H2]. now apply count_loop_complete.
Qed.

(** A blog is returned by [Query] exactly when one of its rows carries
    the text of a token of the query that is not whitespace. *)
Lemma Query_In (o : range_order) (keyword : string) (d : DBConnector)
    (i : ObjectId) :
  (forall l, Permutation (sort_Sort l) l) ->
  In i (fst (Query lexto sort_Sort o keyword d)) <->
  exists row token,
    In row (termTable d) /\ idx_Blog_id row = i /\
    In token (lexto keyword) /\ IsSpace token = false /\
    idx_Term row = GetText token.
Proof.
  intros Hperm. rewrite (Query_result lexto sort_Sort). split.
  - intros H.
    apply (Permutation_in _ (rank_Permutation sort_Sort Hperm _ _ _ _)) in H.
    apply retrieve_In in H as [row [Hrow [Hterm Hid]]].
    apply Query_terms_iff in Hterm as [token [Hin [Hns Htext]]].
    exists row, token. auto.
  - intros [row [token [Hrow [Hid [Hin [Hns Hterm]]]]]].
    apply (Permutation_in _
             (Permutation_sym (rank_Permutation sort_Sort Hperm _ _ _ _))).
    apply retrieve_In. exists row. split; [assumption|]. split; [|assumption].
    apply Query_terms_iff. exists token. auto.
Qed.

(** C10, as the code has it.  The two operations filter tokens
    differently: [Query] drops whitespace tokens only, so that a blog is
    returned exactly when one of its rows carries the text of a token of
    the query that is not whitespace, markup included;
    [count_occurences] counts the tokens that are neither whitespace nor
    markup, and [AddIndexes] writes a row for each of them.  When the
    tokenizer classifies markup by the text of the token alone and the
    inverted index holds only rows written by [AddIndexes], a markup token
    of the query becomes a query term that equals the term of no index
    row, and the blogs returned are those matched by the tokens of the
    query that are neither whitespace nor markup. *)
Theorem markup_query_term_matches_no_row (o : range_order)
    (calls : list Call) (data : DBConnector) :
  markup_by_text lexto ->
  termTable data = [] ->
  (forall c, In c calls -> fair (call_idx c)) ->
  (forall l, Permutation (sort_Sort l) l) ->
  let index := run_calls lexto math_Log calls data in
  (forall keyword d i,
     In i (fst (Query lexto sort_Sort o keyword d)) <->
     exists row token,
       In row (termTable d) /\ idx_Blog_id row = i /\
       In token (lexto keyword) /\ IsSpace token = false /\
       idx_Term row = GetText token) /\
  (forall content d k,
     In k (map fst (fst (count_occurences lexto content d))) <->
     In k (lexto content) /\ IsSpace k = false /\ IsHTML k = false) /\
  (forall c k,
     In c calls -> In k (lexto (assemble (call_blog c))) ->
     IsSpace k = false -> IsHTML k = false ->
     exists row,
       In row (termTable index) /\
       idx_Term row = GetText k /\ idx_Blog_id row = Blog_id (call_blog c)) /\
  (forall keyword token,
     In token (lexto keyword) -> IsSpace token = false -> IsHTML token = true ->
     In (GetText token) (Query_terms lexto keyword) /\
     forall row, In row (termTable index) -> idx_Term row <> GetText token) /\
  (forall keyword i,
     In i (fst (Query lexto sort_Sort o keyword index)) <->
     exists row token,
       In row (termTable index) /\ idx_Blog_id row = i /\
       In token (lexto keyword) /\ IsSpace token = false /\
       IsHTML token = false /\ idx_Term row = GetText token).
Proof.
  intros Hclass Hempty Hfair Hperm index.
  assert (Hnone : forall keyword token row,
             In token (lexto keyword) -> IsHTML token = true ->
             In row (termTable index) -> idx_Term row <> GetText token).
  { intros keyword token row Hin Hhtml Hrow Heq.
    assert (Hrows : Forall (from_counted_token lexto) (termTable index)).
    { apply run_calls_rows_from_counted; [assumption|].
      rewrite Hempty. constructor. }
    rewrite Forall_forall in Hrows.
    destruct (Hrows row Hrow) as [text [k [Hk [Hidx Hterm]]]].
    unfold indexable in Hidx.
    rewrite negb_true_iff, orb_false_iff in Hidx. destruct Hidx as [_ Hkh].
    assert (Hsame : IsHTML k = IsHTML token).
    { apply (Hclass text keyword); auto. congruence. }
    congruence. }
  split; [|split; [|split; [|split]]].
  - intros keyword d i. now apply Query_In.
  - intros content d k. rewrite count_occurences_In. unfold indexable.
    rewrite negb_true_iff, orb_false_iff. tauto.
  - intros c k Hc Hin Hns Hnh. apply run_calls_indexes_term; auto.
    unfold indexable. now rewrite Hns, Hnh.
  - intros keyword token Hin Hns Hhtml. split.
    + apply Query_terms_iff. exists token. auto.
    + intros row Hrow. now apply (Hnone keyword).
  - intros keyword i. rewrite Query_In by assumption. split.
    + intros [row [token [Hrow [Hid [Hin [Hns Hterm]]]]]].
      exists row, token. repeat split; auto.
      destruct (IsHTML token) eqn:Hhtml; [|reflexivity].
      exfalso. now apply (Hnone keyword token row).
    + intros [row [token [Hrow [Hid [Hin [Hns [_ Hterm]]]]]]].
      exists row, token. auto.
Qed.

End FilterFacts.

Lemma markup_query_term_matches_no_row_witness :
  let index :=
    run_calls Sample.lexto Sample.log Sample.markup_calls Sample.markup_blog in
  (In "<b>" (Query_terms Sample.lexto "<b> cat") /\
   forall row, In row (termTable index) -> idx_Term row <> "<b>") /\
  (In "doc1" (fst (Query Sample.lexto insertionSort in_order "<b> cat" index)) <->
   exists row token,
     In row (termTable index) /\ idx_Blog_id row = "doc1" /\
     In token (Sample.lexto "<b> cat") /\ IsSpace token = false /\
     IsHTML token = false /\ idx_Term row = GetText token).
Proof.
  destruct (markup_query_term_matches_no_row Sample.lexto Sample.log
              insertionSort in_order Sample.markup_calls Sample.markup_blog)
    as [_ [_ [_ [Hmarkup Hquery]]]].
  - exact Sample_lexto_markup_by_text.
  - reflexivity.
  - intros c [<- | []]. exact in_order_fair.
  - exact insertionSort_Permutation.
  - split; [|apply Hquery].
    apply (Hmarkup "<b> cat" (Sample.word_token "<b>")).
    + vm_compute. auto.
    + reflexivity.
    + reflexivity.
Defined.

(** C10 fails on the code when the tokenizer classifies by context.  The
    blog [see <b> cat] is indexed: in that text the token [<b>] is not
    classified as markup, it is counted and gets an index row.  In the
    query text [<b>] the token is classified as markup; [Query] keeps it as
    a term, the term matches the row, and the blog is returned.  It fails
    as well, under a tokenizer that classifies by text, on an index with a
    row that [AddIndexes] did not write. *)
Lemma contextual_markup_term_matches_row :
  let index :=
    run_calls Sample.contextual_lexto Sample.log Sample.markup_calls
      Sample.markup_blog in
  Sample.contextual_lexto "<b>" = [Sample.word_token "<b>"] /\
  IsSpace (Sample.word_token "<b>") = false /\
  IsHTML (Sample.word_token "<b>") = true /\
  Query_terms Sample.contextual_lexto "<b>" = ["<b>"] /\
  map (fun row => (idx_Term row, idx_Blog_id row)) (termTable index)
  = [("see", "doc1"); ("<b>", "doc1"); ("cat", "doc1")] /\
  fst (Query Sample.contextual_lexto insertionSort in_order "<b>" index)
  = ["doc1"] /\
  Sample.lexto "<b>" = [Sample.word_token "<b>"] /\
  fst (Query Sample.lexto insertionSort in_order "<b>" Sample.foreign_row)
  = ["doc9"].
Proof. vm_compute. repeat split; reflexivity. Qed.

(** ** Two consequences for whole runs *)

Lemma find_head_filter {A : Type} (f : A -> bool) (l : list A) :
  find f l = head (filter f l).
Proof.
  induction l as [|x l IH]; simpl; [reflexivity|].
  destruct (f x); [reflexivity | exact IH].
Qed.

Lemma lookup_weight_filter (t : string) (weights : list Weight_Document) :
  lookup_weight t weights
  = option_map decode_Term_Weight (head (filter (has_term t) weights)).
Proof. unfold lookup_weight. now rewrite find_head_filter. Qed.

Lemma filter_counted_first_absent (math_Log : float -> float) (N : Z)
    (t : string) (keys : list Token) :
  ~ In t (map GetText keys) ->
  filter (has_term t)
    (map (fun k => Stored (counted_first math_Log N (GetText k))) keys)
  = [].
Proof.
  induction keys as [|k keys IH]; cbn [map filter]; [reflexivity|].
  intros Hnot. cbn [has_term counted_first tw_Term].
  destruct (GetText k =? t) eqn:E.
  - apply String.eqb_eq in E. exfalso. apply Hnot. now left.
  - apply IH. intros H. apply Hnot. now right.
Qed.

Lemma filter_counted_first (math_Log : float -> float) (N : Z)
    (t : string) (keys : list Token) :
  NoDup (map GetText keys) -> In t (map GetText keys) ->
  filter (has_term t)
    (map (fun k => Stored (counted_first math_Log N (GetText k))) keys)
  = [Stored (counted_first math_Log N t)].
Proof.
  induction keys as [|k keys IH]; cbn [map filter]; [intros _ []|].
  intros Hnd Hin. inversion Hnd as [|? ? Hnotin Hnd']; subst.
  cbn [has_term counted_first tw_Term].
  destruct (GetText k =? t) eqn:E.
  - apply String.eqb_eq in E. subst t.
    now rewrite filter_counted_first_absent.
  - destruct Hin as [Heq | Hin]; [|auto].
    rewrite Heq, String.eqb_refl in E. discriminate.
Qed.

Section RunFacts.

Variable lexto : string -> list Token.
Variable math_Log : float -> float.

(** X22: indexing a blog twice, starting from empty stores: after the
    first call every counted term of the blog has a record with count 1
    and one index row; after the second call it has two index rows and no
    record at all. *)
Theorem AddIndexes_twice_on_empty (o1 o2 o3 p1 p2 p3 : range_order) (b : Blog)
    (data : DBConnector) (token : Token) :
  weightTable data = [] -> termTable data = [] ->
  fair o2 -> fair o3 -> fair p2 -> fair p3 ->
  In token (lexto (assemble b)) -> indexable token = true ->
  GetText token <> "" ->
  let once := AddIndexes lexto math_Log o1 o2 o3 b data in
  let twice := AddIndexes lexto math_Log p1 p2 p3 b once in
  lookup_weight (GetText token) (weightTable once)
  = Some (counted_first math_Log (corpus_size data) (GetText token)) /\
  lookup_weight (GetText token) (weightTable twice) = None /\
  index_rows (GetText token) (Blog_id b) (termTable once) = 1%nat /\
  index_rows (GetText token) (Blog_id b) (termTable twice) = 2%nat.
Proof.
  intros Hw Ht Ho2 Ho3 Hp2 Hp3 Hin Hidx Hne once twice.
  assert (Hfirst : lookup_weight (GetText token) (weightTable once)
                   = Some (counted_first math_Log (corpus_size data) (GetText token))).
  { apply (run_call_on_empty lexto math_Log data
             {| call_norm := o1; call_idf := o2; call_idx := o3; call_blog := b |});
      auto. }
  assert (Hrows : index_rows (GetText token) (Blog_id b) (termTable once) = 1%nat).
  { unfold once. rewrite AddIndexes_adds_one_row by assumption.
    now rewrite Ht. }
  assert (Hdocs : filter (has_term (GetText token)) (weightTable once)
                  = [Stored (counted_first math_Log (corpus_size data)
                               (GetText token))]).
  { unfold once. rewrite AddIndexes_weightTable, Hw.
    rewrite updateIDF_fold_fresh.
    - cbn [snd app]. apply filter_counted_first.
      + now apply visited_texts_NoDup.
      + now apply visited_texts_In.
    - reflexivity.
    - now apply visited_texts_NoDup.
    - reflexivity. }
  repeat split.
  - exact Hfirst.
  - rewrite lookup_weight_filter. unfold twice.
    rewrite (AddIndexes_replaces_known lexto math_Log p1 p2 p3 b once token _
               Hp2 Hin Hidx Hne Hfirst).
    now rewrite Hdocs.
  - exact Hrows.
  - unfold twice. rewrite AddIndexes_adds_one_row by assumption.
    now rewrite Hrows.
Qed.

(** The bulk operation is a sequence of indexing calls, one per stored
    blog, over a corpus that keeps its size. *)
Lemma Create_index_forAllBlogs_run_calls (o_norm o_idf o_idx : range_order)
    (data : DBConnector) :
  Create_index_forAllBlogs lexto math_Log o_norm o_idf o_idx data
  = run_calls lexto math_Log
      (map (fun b => {| call_norm := o_norm; call_idf := o_idf;
                        call_idx := o_idx; call_blog := b |})
         (blogTable data))
      data.
Proof.
  unfold Create_index_forAllBlogs, run_calls.
  generalize (blogTable data) as blogs. generalize data as d.
  intros d blogs. revert d.
  induction blogs as [|b blogs IH]; intros d; simpl.
  - reflexivity.
  - apply IH.
Qed.

End RunFacts.

Lemma AddIndexes_twice_on_empty_witness :
  let b := Sample.post "doc1" "cat dog" "" in
  let once :=
    AddIndexes Sample.lexto Sample.log in_order backwards in_order b
      Sample.two_blogs in
  let twice :=
    AddIndexes Sample.lexto Sample.log in_order in_order backwards b once in
  lookup_weight "dog" (weightTable once)
  = Some (counted_first Sample.log (corpus_size Sample.two_blogs) "dog") /\
  lookup_weight "dog" (weightTable twice) = None /\
  index_rows "dog" "doc1" (termTable once) = 1%nat /\
  index_rows "dog" "doc1" (termTable twice) = 2%nat.
Proof.
  apply (AddIndexes_twice_on_empty Sample.lexto Sample.log
           in_order backwards in_order in_order in_order backwards
           (Sample.post "doc1" "cat dog" "") Sample.two_blogs
           (Sample.word_token "dog")).
  - reflexivity.
  - reflexivity.
  - exact backwards_fair.
  - exact in_order_fair.
  - exact in_order_fair.
  - exact backwards_fair.
  - vm_compute. auto.
  - reflexivity.
  - discriminate.
Defined.


(** * Further properties of the code *)

(** ** Counting occurrences *)

Section MapLookupFacts.

Context {K V : Type} (eqb : K -> K -> bool).
Hypothesis eqb_eq : forall a b, eqb a b = true <-> a = b.

Lemma map_get_set_same (m : list (K * V)) (k : K) (v : V) :
  map_get eqb (map_set eqb m k v) k = Some v.
Proof.
  induction m as [|[k' v'] m IH]; simpl.
  - assert (E : eqb k k = true) by now apply eqb_eq. now rewrite E.
  - destruct (eqb k' k) eqn:E; simpl; now rewrite E.
Qed.

Lemma map_get_set_other (m : list (K * V)) (k k0 : K) (v : V) :
  k0 <> k -> map_get eqb (map_set eqb m k v) k0 = map_get eqb m k0.
Proof.
  intros Hne. induction m as [|[k' v'] m IH]; simpl.
  - destruct (eqb k k0) eqn:E; [|reflexivity].
    apply eqb_eq in E. congruence.
  - destruct (eqb k' k) eqn:E; simpl.
    + apply eqb_eq in E. subst k'.
      destruct (eqb k k0) eqn:E'; [|reflexivity].
      apply eqb_eq in E'. congruence.
    + now rewrite IH.
Qed.

End MapLookupFacts.

Lemma Token_eqb_refl (a : Token) : Token_eqb a a = true.
Proof. now apply Token_eqb_eq. Qed.

Lemma Token_eqb_neq (a b : Token) : a <> b -> Token_eqb a b = false.
Proof.
  intros H. destruct (Token_eqb a b) eqn:E; [|reflexivity].
  apply Token_eqb_eq in E. contradiction.
Qed.

Lemma occurrences_cons (token tok : Token) (tokens : list Token) :
  occurrences token (tok :: tokens)
  = (if Token_eqb token tok then 1 else 0) + occurrences token tokens.
Proof.
  unfold occurrences. cbn [filter].
  destruct (Token_eqb token tok); cbn [List.length]; lia.
Qed.

Lemma occurrences_nonneg (token : Token) (tokens : list Token) :
  0 <= occurrences token tokens.
Proof. unfold occurrences. lia. Qed.

(** The loop of [count_occurences] adds, to the count a token already has,
    the number of its occurrences in the stream. *)
Lemma count_loop_adds (tokens : list Token) (frequency : list (Token * Z))
    (token : Token) :
  indexable token = true ->
  match map_get Token_eqb frequency token with
  | Some n => 1 <= n /\ n + occurrences token tokens <= GoInt.max_int
  | None => occurrences token tokens <= GoInt.max_int
  end ->
  map_get Token_eqb (count_loop tokens frequency) token
  = match map_get Token_eqb frequency token with
    | Some n => Some (n + occurrences token tokens)
    | None =>
        if (occurrences token tokens =? 0)%Z then None
        else Some (occurrences token tokens)
    end.
Proof.
  intros Hidx. revert frequency.
  induction tokens as [|tok rest IH]; intros frequency Hbound.
  - simpl. unfold occurrences. simpl.
    destruct (map_get Token_eqb frequency token); [f_equal; lia | reflexivity].
  - rewrite occurrences_cons in *. pose proof (occurrences_nonneg token rest) as Hpos.
    cbn [count_loop].
    destruct (Token_eqb token tok) eqn:E.
    + apply Token_eqb_eq in E. subst tok.
      unfold indexable in Hidx. apply negb_true_iff in Hidx. rewrite Hidx.
      destruct (map_get Token_eqb frequency token) as [n|] eqn:G.
      * rewrite IH; rewrite (map_get_set_same Token_eqb Token_eqb_eq).
        -- rewrite GoInt_add_one by (unfold GoInt.min_int, GoInt.max_int in *; lia).
           f_equal. lia.
        -- rewrite GoInt_add_one by (unfold GoInt.min_int, GoInt.max_int in *; lia).
           lia.
      * rewrite IH; rewrite (map_get_set_same Token_eqb Token_eqb_eq).
        -- destruct (1 + occurrences token rest =? 0)%Z eqn:Z0; [lia|].
           f_equal.
        -- lia.
    + assert (Hne : token <> tok).
      { intros ->. rewrite Token_eqb_refl in E. discriminate. }
      destruct (IsSpace tok || IsHTML tok).
      * rewrite IH by exact Hbound. reflexivity.
      * destruct (map_get Token_eqb frequency tok);
          (rewrite IH;
           rewrite (map_get_set_other Token_eqb Token_eqb_eq) by exact Hne;
           [reflexivity | exact Hbound]).
Qed.

Lemma count_loop_skips (tokens : list Token) (frequency : list (Token * Z))
    (token : Token) :
  indexable token = false ->
  map_get Token_eqb (count_loop tokens frequency) token
  = map_get Token_eqb frequency token.
Proof.
  intros Hidx. revert frequency.
  induction tokens as [|tok rest IH]; intros frequency; simpl; [reflexivity|].
  destruct (IsSpace tok || IsHTML tok) eqn:E; [apply IH|].
  assert (Hne : token <> tok).
  { intros ->. unfold indexable in Hidx. rewrite E in Hidx. discriminate. }
  destruct (map_get Token_eqb frequency tok);
    rewrite IH; now apply (map_get_set_other Token_eqb Token_eqb_eq).
Qed.

(** X1: [count_occurences] maps every token that is neither whitespace nor
    markup to the number of its occurrences in the text, and has no entry
    for any other token; the read-out is exact as long as the stream has at
    most [max_int] tokens. *)
Theorem count_occurences_counts (lexto : string -> list Token)
    (content : string) (data : DBConnector) (token : Token) :
  Z.of_nat (List.length (lexto content)) <= GoInt.max_int ->
  map_get Token_eqb (fst (count_occurences lexto content data)) token
  = if indexable token && negb (occurrences token (lexto content) =? 0)%Z
    then Some (occurrences token (lexto content))
    else None.
Proof.
  intros Hlen. unfold count_occurences. simpl.
  destruct (indexable token) eqn:Hidx; simpl.
  - rewrite count_loop_adds; simpl; auto.
    + destruct (occurrences token (lexto content) =? 0)%Z; reflexivity.
    + unfold occurrences.
      pose proof (filter_length_le (Token_eqb token) (lexto content)). lia.
  - now rewrite count_loop_skips.
Qed.

Lemma count_occurences_counts_witness :
  map_get Token_eqb
    (fst (count_occurences Sample.lexto "cat cat <b> fish" Sample.one_blog))
    (Sample.word_token "cat")
  = if indexable (Sample.word_token "cat")
       && negb (occurrences (Sample.word_token "cat")
                  (Sample.lexto "cat cat <b> fish") =? 0)%Z
    then Some (occurrences (Sample.word_token "cat")
                 (Sample.lexto "cat cat <b> fish"))
    else None.
Proof.
  apply (count_occurences_counts Sample.lexto "cat cat <b> fish"
           Sample.one_blog (Sample.word_token "cat")).
  vm_compute. discriminate.
Defined.

(** ** The term list of a query *)

Lemma filter_filter {A : Type} (f g : A -> bool) (l : list A) :
  filter f (filter g l) = filter (fun x => g x && f x) l.
Proof.
  induction l as [|x l IH]; simpl; [reflexivity|].
  destruct (g x); simpl; [destruct (f x)|]; now rewrite IH.
Qed.

Lemma mem_string_app (t : string) (l1 l2 : list string) :
  mem_string t (l1 ++ l2) = mem_string t l1 || mem_string t l2.
Proof. unfold mem_string. apply existsb_app. Qed.

Lemma mem_string_singleton (t x : string) : mem_string t [x] = (t =? x).
Proof. unfold mem_string. simpl. apply orb_false_r. Qed.

Lemma map_mem_set (m : list (string * bool)) (k t : string) :
  map_mem String.eqb (map_set String.eqb m k true) t
  = map_mem String.eqb m t || (t =? k).
Proof.
  unfold map_mem. destruct (string_dec t k) as [-> | Hne].
  - rewrite (map_get_set_same String.eqb string_eqb_eq), String.eqb_refl.
    now rewrite orb_true_r.
  - rewrite (map_get_set_other String.eqb string_eqb_eq) by assumption.
    destruct (t =? k) eqn:E; [|now rewrite orb_false_r].
    apply String.eqb_eq in E. contradiction.
Qed.

(** The loop of [Query], with [termFound] holding exactly the collected
    terms, appends the first occurrences of the texts not yet collected. *)
Lemma Query_loop_first_occurrences (tokens : list Token)
    (found : list (string * bool)) (terms : list string) :
  (forall t, map_mem String.eqb found t = mem_string t terms) ->
  Query_loop tokens found terms
  = terms ++ filter (fun t => negb (mem_string t terms))
               (first_occurrences (spoken_texts tokens)).
Proof.
  revert found terms.
  induction tokens as [|tok rest IH]; intros found terms Hinv.
  - simpl. now rewrite app_nil_r.
  - cbn [Query_loop]. unfold spoken_texts in *. cbn [filter].
    rewrite Hinv. destruct (mem_string (GetText tok) terms) eqn:Hmem.
    + rewrite IH by assumption. f_equal.
      destruct (IsSpace tok); cbn [negb map first_occurrences filter];
        [reflexivity|].
      rewrite Hmem. cbn [negb]. rewrite filter_filter.
      apply filter_ext_in. intros t _.
      destruct (t =? GetText tok) eqn:E; [|reflexivity].
      apply String.eqb_eq in E. subst t. now rewrite Hmem.
    + destruct (IsSpace tok); cbn [negb map first_occurrences filter].
      * now apply IH.
      * rewrite Hmem. cbn [negb]. rewrite IH.
        -- rewrite <- app_assoc. cbn [app]. do 2 f_equal.
           rewrite filter_filter. apply filter_ext. intros t.
           rewrite mem_string_app, mem_string_singleton, negb_orb.
           apply andb_comm.
        -- intros t. rewrite map_mem_set, mem_string_app, Hinv.
           now rewrite mem_string_singleton.
Qed.

Lemma first_occurrences_NoDup (l : list string) : NoDup (first_occurrences l).
Proof.
  induction l as [|x l IH]; simpl; constructor.
  - intros H. apply filter_In in H as [_ H].
    rewrite String.eqb_refl in H. discriminate.
  - now apply NoDup_filter.
Qed.

(** X2: the terms that [Query] extracts from a text are the texts of its
    tokens that are not whitespace, each kept once at its first occurrence
    and in stream order; in particular they are pairwise distinct. *)
Theorem Query_terms_first_occurrences (lexto : string -> list Token)
    (keyword : string) :
  Query_terms lexto keyword = first_occurrences (spoken_texts (lexto keyword)) /\
  NoDup (Query_terms lexto keyword).
Proof.
  assert (H : Query_terms lexto keyword
              = first_occurrences (spoken_texts (lexto keyword))).
  { unfold Query_terms. rewrite (Query_loop_first_occurrences _ [] []).
    - simpl. induction (first_occurrences _) as [|x l IH]; simpl; congruence.
    - reflexivity. }
  split; [exact H|]. rewrite H. apply first_occurrences_NoDup.
Qed.

(** ** What a query returns *)

Section QueryFacts.

Variable lexto : string -> list Token.
Variable sort_Sort : list Similarity -> list Similarity.

Hypothesis sort_Sort_permutes : forall l, Permutation (sort_Sort l) l.

(** X3: a document identifier is returned by [Query] exactly when the
    inverted index holds a row of that document whose term is one of the
    query terms; scores decide the order only, never the membership. *)
Theorem Query_returns_exactly_matching_blogs (o : range_order)
    (keyword : string) (data : DBConnector) (id : ObjectId) :
  In id (fst (Query lexto sort_Sort o keyword data)) <->
  exists row,
    In row (termTable data) /\
    In (idx_Term row) (Query_terms lexto keyword) /\
    idx_Blog_id row = id.
Proof.
  rewrite (Query_result lexto sort_Sort), <- retrieve_In.
  split; apply Permutation_in.
  - apply rank_Permutation, sort_Sort_permutes.
  - symmetry. apply rank_Permutation, sort_Sort_permutes.
Qed.

(** X4: when no index row carries a query term (an empty index, a text of
    whitespace only, or terms that no document holds), [Query] returns the
    empty list. *)
Theorem Query_without_match_is_empty (o : range_order) (keyword : string)
    (data : DBConnector) :
  (forall row, In row (termTable data) ->
               ~ In (idx_Term row) (Query_terms lexto keyword)) ->
  fst (Query lexto sort_Sort o keyword data) = [].
Proof.
  intros Hnone. rewrite (Query_result lexto sort_Sort).
  assert (Hcand : retrieve data (Query_terms lexto keyword) = []).
  { destruct (retrieve data (Query_terms lexto keyword)) as [|id ids] eqn:E;
      [reflexivity|].
    assert (Hin : In id (retrieve data (Query_terms lexto keyword)))
      by (rewrite E; now left).
    apply retrieve_In in Hin as [row [Hrow [Hterm _]]].
    exfalso. now apply (Hnone row). }
  rewrite Hcand. apply Permutation_nil. symmetry.
  apply rank_Permutation, sort_Sort_permutes.
Qed.

End QueryFacts.

Lemma Query_returns_exactly_matching_blogs_witness :
  In "doc2" (fst (Query Sample.lexto insertionSort in_order "cat" Sample.two_docs)) <->
  exists row,
    In row (termTable Sample.two_docs) /\
    In (idx_Term row) (Query_terms Sample.lexto "cat") /\
    idx_Blog_id row = "doc2".
Proof.
  apply (Query_returns_exactly_matching_blogs Sample.lexto insertionSort
           insertionSort_Permutation in_order "cat" Sample.two_docs "doc2").
Defined.

Lemma Query_without_match_is_empty_witness :
  fst (Query Sample.lexto insertionSort in_order "zebra  " Sample.two_docs) = [].
Proof.
  apply (Query_without_match_is_empty Sample.lexto insertionSort
           insertionSort_Permutation in_order "zebra  " Sample.two_docs).
  vm_compute. intros row [<- | [<- | [<- | []]]] [H | []]; discriminate.
Defined.

(** ** The two vectors of a score *)

Lemma find_snoc {A : Type} (f : A -> bool) (l : list A) (x : A) :
  find f (l ++ [x])
  = match find f l with
    | Some y => Some y
    | None => if f x then Some x else None
    end.
Proof.
  induction l as [|y l IH]; simpl; [reflexivity|].
  destruct (f y); [reflexivity | exact IH].
Qed.

Lemma arrangeTerms_fold (rows : list Inverted_Index)
    (acc : list (string * float)) (t : string) :
  map_get String.eqb
    (fold_left (fun results i => map_set String.eqb results (idx_Term i) (idx_Tf_Idf i))
       rows acc) t
  = match find (fun row => idx_Term row =? t) (rev rows) with
    | Some row => Some (idx_Tf_Idf row)
    | None => map_get String.eqb acc t
    end.
Proof.
  revert acc. induction rows as [|r rows IH]; intros acc; simpl; [reflexivity|].
  rewrite IH, find_snoc.
  destruct (find (fun row => idx_Term row =? t) (rev rows)); [reflexivity|].
  destruct (idx_Term r =? t) eqn:E.
  - apply String.eqb_eq in E. subst t.
    apply (map_get_set_same String.eqb string_eqb_eq).
  - apply (map_get_set_other String.eqb string_eqb_eq).
    intros ->. rewrite String.eqb_refl in E. discriminate.
Qed.

(** X7: the vector that [arrangeTerms] builds holds, for each term, the
    weight of the last fetched row of that term, so that duplicate rows of
    a term do not add up; a term without row reads as zero. *)
Theorem arrangeTerms_last_row_wins (rows : list Inverted_Index) (t : string) :
  index_float (arrangeTerms rows) t
  = match find (fun row => idx_Term row =? t) (rev rows) with
    | Some row => idx_Tf_Idf row
    | None => 0%float
    end.
Proof.
  unfold index_float, arrangeTerms. rewrite arrangeTerms_fold.
  destruct (find _ (rev rows)); reflexivity.
Qed.

(** X5: every score that [rank] computes is NaN, whatever the store, the
    query and the candidate: the query vector is zero and the vector of
    the candidate is empty.  Hence [Less] is false between any two of the
    entries handed to [sort.Sort]. *)
Theorem rank_scores_are_NaN (o : range_order) (data : DBConnector)
    (terms : list string) (blogs : list ObjectId) :
  fair o ->
  Forall (fun s => PrimFloat.is_nan (cosine s) = true)
    (rank_results o data terms blogs) /\
  (forall a b,
     In a (rank_results o data terms blogs) ->
     In b (rank_results o data terms blogs) -> Less a b = false).
Proof.
  intros Hfair.
  assert (Hnan : forall s, In s (rank_results o data terms blogs) ->
                           cosine s = nan).
  { intros s Hs. rewrite rank_results_map in Hs.
    apply in_map_iff in Hs as [i [<- _]]. cbn [cosine].
    now apply score_is_nan. }
  split.
  - apply Forall_forall. intros s Hs. now rewrite (Hnan s Hs).
  - intros a b Ha Hb. unfold Less. now rewrite (Hnan a Ha), (Hnan b Hb).
Qed.

Lemma rank_scores_are_NaN_witness :
  Forall (fun s => PrimFloat.is_nan (cosine s) = true)
    (rank_results in_order Sample.two_docs ["cat"; "dog"] ["doc1"; "doc2"]) /\
  (forall a b,
     In a (rank_results in_order Sample.two_docs ["cat"; "dog"] ["doc1"; "doc2"]) ->
     In b (rank_results in_order Sample.two_docs ["cat"; "dog"] ["doc1"; "doc2"]) ->
     Less a b = false).
Proof.
  apply (rank_scores_are_NaN in_order Sample.two_docs ["cat"; "dog"]
           ["doc1"; "doc2"]).
  exact in_order_fair.
Defined.

(** The loop of [queryRank] never looks at what the store holds. *)
Lemma queryRank_loop_store (weights weights' : list Weight_Document)
    (terms : list string) (idf : float) (results : list (string * float)) :
  queryRank_loop weights terms idf results
  = queryRank_loop weights' terms idf results.
Proof.
  revert results. induction terms as [|t terms IH]; intros results;
    cbn [queryRank_loop]; [reflexivity|].
  assert (Hidf : forall w, One_undecodable (has_term t) w idf = idf).
  { intros w. unfold One_undecodable. destruct (find _ w); reflexivity. }
  rewrite !Hidf. apply IH.
Qed.

(** X8: the stored idf of a term never reaches the query vector: the
    vector is the same for every content of the statistics store, and it
    gives the weight 0 to every query term, with or without record. *)
Theorem queryRank_ignores_stored_idf (data data' : DBConnector)
    (terms : list string) (t : string) :
  queryRank data terms = queryRank data' terms /\
  map_get String.eqb (queryRank data terms) t
  = if mem_string t terms then Some 0%float else None.
Proof.
  split.
  - apply queryRank_loop_store.
  - unfold queryRank. now rewrite queryRank_loop_entry.
Qed.

(** ** Registration of terms by [updateIDF] *)

Section RegistrationFacts.

Variable math_Log : float -> float.
Variable N : Z.

(** Once [weightRow] holds a record with a term, it holds one for the rest
    of the loop. *)
Lemma updateIDF_step_weightRow (weightRow : Term_Weight)
    (weights : list Weight_Document) (key : Token) :
  GetText key <> "" -> tw_Term weightRow <> "" ->
  tw_Term (fst (updateIDF_step math_Log N (weightRow, weights) key)) <> "".
Proof.
  intros Hkey Hrow. unfold updateIDF_step, One.
  destruct (find (has_term (GetText key)) weights) as [doc|] eqn:F.
  - apply find_some in F as [_ F]. destruct doc as [r | idf n]; [|discriminate].
    apply String.eqb_eq in F. cbn [decode_Term_Weight].
    destruct (tw_Term r =? ""); simpl; congruence.
  - destruct (tw_Term weightRow =? ""); simpl; assumption.
Qed.

(** With a record in [weightRow], the loop registers no term that has no
    record. *)
Lemma updateIDF_fold_skips (keys : list Token) (weightRow : Term_Weight)
    (weights : list Weight_Document) (t : string) :
  (forall k, In k keys -> GetText k <> "") ->
  tw_Term weightRow <> "" ->
  lookup_weight t weights = None ->
  lookup_weight t
    (snd (fold_left (updateIDF_step math_Log N) keys (weightRow, weights)))
  = None.
Proof.
  revert weightRow weights.
  induction keys as [|k keys IH]; intros weightRow weights Hkeys Hrow Habs;
    cbn [fold_left]; [exact Habs|].
  pose proof (updateIDF_step_weightRow weightRow weights k
                (Hkeys k (or_introl eq_refl)) Hrow) as Hrow'.
  assert (Habs' : lookup_weight t
                    (snd (updateIDF_step math_Log N (weightRow, weights) k)) = None).
  { destruct (string_dec t (GetText k)) as [-> | Hne].
    - rewrite updateIDF_step_skipped; assumption.
    - now rewrite updateIDF_step_other. }
  destruct (updateIDF_step math_Log N (weightRow, weights) k) as [w' ws'].
  apply IH; auto. intros k' Hk'. apply Hkeys. now right.
Qed.

Lemma updateIDF_fold_weightRow (keys : list Token) (weightRow : Term_Weight)
    (weights : list Weight_Document) :
  (forall k, In k keys -> GetText k <> "") ->
  tw_Term weightRow <> "" ->
  tw_Term (fst (fold_left (updateIDF_step math_Log N) keys (weightRow, weights)))
  <> "".
Proof.
  revert weightRow weights.
  induction keys as [|k keys IH]; intros weightRow weights Hkeys Hrow;
    cbn [fold_left]; [exact Hrow|].
  pose proof (updateIDF_step_weightRow weightRow weights k
                (Hkeys k (or_introl eq_refl)) Hrow).
  destruct (updateIDF_step math_Log N (weightRow, weights) k).
  apply IH; auto. intros k' Hk'. apply Hkeys. now right.
Qed.

End RegistrationFacts.

(** X9: [updateIDF] registers a term that has no record exactly when no
    term visited before it had one: visited after unknown terms only, it is
    inserted with count 1 and the idf of count 1; visited after a term that
    had a record, it is left without record. *)
Theorem updateIDF_registers_new_term (math_Log : float -> float)
    (o : range_order)
    (frequency : list (Token * Z)) (data : DBConnector)
    (before after : list Token) (key : Token) :
  map fst (o _ frequency) = before ++ key :: after ->
  NoDup (map GetText (before ++ key :: after)) ->
  (forall k, In k before -> GetText k <> "") ->
  lookup_weight (GetText key) (weightTable data) = None ->
  ((forall k, In k before ->
              lookup_weight (GetText k) (weightTable data) = None) ->
   lookup_weight (GetText key) (weightTable (updateIDF math_Log o frequency data))
   = Some (counted_first math_Log (corpus_size data) (GetText key))) /\
  ((exists k, In k before /\
              lookup_weight (GetText k) (weightTable data) <> None) ->
   lookup_weight (GetText key) (weightTable (updateIDF math_Log o frequency data))
   = None).
Proof.
  intros Hvisit Hnd Htexts Habs.
  rewrite map_app in Hnd. cbn [map] in Hnd.
  pose proof (NoDup_remove_2 _ _ _ Hnd) as Hkey.
  pose proof (NoDup_remove_1 _ _ _ Hnd) as Hrest.
  assert (Hnb : ~ In (GetText key) (map GetText before))
    by (intros H; apply Hkey, in_or_app; now left).
  assert (Hna : ~ In (GetText key) (map GetText after))
    by (intros H; apply Hkey, in_or_app; now right).
  assert (Hndb : NoDup (map GetText before)).
  { apply NoDup_app_remove_r in Hrest. exact Hrest. }
  unfold updateIDF. cbn [weightTable set_weightTable].
  rewrite Hvisit, fold_left_app. cbn [fold_left].
  fold (corpus_size data). split.
  - intros Hfresh.
    rewrite (updateIDF_fold_fresh math_Log _ before) by auto.
    rewrite updateIDF_fold_other by exact Hna.
    assert (Hstill : lookup_weight (GetText key)
                       (weightTable data
                        ++ map (fun k => Stored (counted_first math_Log
                                                   (corpus_size data)
                                                   (GetText k))) before) = None).
    { rewrite lookup_weight_app_absent by exact Habs.
      clear - Hnb.
      induction before as [|k before IH]; cbn [map]; [reflexivity|].
      rewrite lookup_weight_cons. cbn [has_term counted_first tw_Term].
      destruct (GetText k =? GetText key) eqn:E.
      - apply String.eqb_eq in E. exfalso. apply Hnb. left. exact E.
      - apply IH. intros H. apply Hnb. now right. }
    rewrite updateIDF_step_new; [|exact Hstill|reflexivity].
    cbn [snd]. rewrite lookup_weight_app_absent by exact Hstill.
    rewrite lookup_weight_cons. cbn [has_term counted_first tw_Term].
    now rewrite String.eqb_refl.
  - intros [k [Hk Hknown]].
    apply in_split in Hk as [b1 [b2 ->]].
    rewrite fold_left_app. cbn [fold_left].
    rewrite updateIDF_fold_other by exact Hna.
    rewrite map_app in Hndb, Hnb. cbn [map] in Hndb, Hnb.
    assert (Hk1 : ~ In (GetText k) (map GetText b1)).
    { intros H. apply (NoDup_remove_2 _ _ _ Hndb), in_or_app. now left. }
    destruct (lookup_weight (GetText k) (weightTable data)) as [row|] eqn:Hrow;
      [|congruence].
    assert (Hrow1 : lookup_weight (GetText k)
                      (snd (fold_left (updateIDF_step math_Log (corpus_size data)) b1
                              (Term_Weight_zero, weightTable data))) = Some row).
    { now rewrite updateIDF_fold_other. }
    assert (Habs1 : lookup_weight (GetText key)
                      (snd (fold_left (updateIDF_step math_Log (corpus_size data)) b1
                              (Term_Weight_zero, weightTable data))) = None).
    { rewrite updateIDF_fold_other; [exact Habs|].
      intros H. apply Hnb, in_or_app. now left. }
    destruct (fold_left (updateIDF_step math_Log (corpus_size data)) b1
                (Term_Weight_zero, weightTable data)) as [w1 ws1].
    cbn [snd] in Hrow1, Habs1.
    assert (Hkne : GetText k <> "").
    { apply Htexts, in_or_app. right. now left. }
    pose proof (updateIDF_step_known math_Log (corpus_size data) w1 row ws1 k
                  Hrow1 Hkne) as Hstep.
    assert (Habs2 : lookup_weight (GetText key)
                      (snd (updateIDF_step math_Log (corpus_size data) (w1, ws1) k))
                    = None).
    { rewrite updateIDF_step_other; [exact Habs1|].
      intros Heq. apply Hnb, in_or_app. right. left. now symmetry. }
    rewrite Hstep in *. cbn [snd] in Habs2.
    assert (Hw : tw_Term row <> "").
    { apply lookup_weight_term in Hrow1 as [-> _]. exact Hkne. }
    match goal with
    | |- context [fold_left _ b2 (row, ?ws)] =>
        pose proof (updateIDF_fold_skips math_Log (corpus_size data) b2 row ws
                      (GetText key)) as Hskip;
        pose proof (updateIDF_fold_weightRow math_Log (corpus_size data) b2 row ws)
          as Hkeep;
        destruct (fold_left (updateIDF_step math_Log (corpus_size data)) b2 (row, ws))
          as [w3 ws3]
    end.
    cbn [fst snd] in Hskip, Hkeep.
    assert (Hb2 : forall k', In k' b2 -> GetText k' <> "").
    { intros k' Hk'. apply Htexts, in_or_app. right. now right. }
    rewrite updateIDF_step_skipped; auto.
Qed.


Lemma updateIDF_registers_new_term_witness :
  let frequency := frequency_of Sample.lexto (Sample.post "doc1" "cat dog fish" "") in
  ((forall k, In k [Sample.word_token "cat"] ->
              lookup_weight (GetText k) (weightTable Sample.knows_cat) = None) ->
   lookup_weight "dog"
     (weightTable (updateIDF Sample.log in_order frequency Sample.knows_cat))
   = Some (counted_first Sample.log (corpus_size Sample.knows_cat) "dog")) /\
  ((exists k, In k [Sample.word_token "cat"] /\
              lookup_weight (GetText k) (weightTable Sample.knows_cat) <> None) ->
   lookup_weight "dog"
     (weightTable (updateIDF Sample.log in_order frequency Sample.knows_cat))
   = None).
Proof.
  apply (updateIDF_registers_new_term Sample.log in_order
           (frequency_of Sample.lexto (Sample.post "doc1" "cat dog fish" ""))
           Sample.knows_cat [Sample.word_token "cat"] [Sample.word_token "fish"]
           (Sample.word_token "dog")).
  - reflexivity.
  - vm_compute. repeat constructor; simpl; intuition discriminate.
  - intros k [<- | []]. discriminate.
  - reflexivity.
Defined.

(** X10: [updateIDF] leaves alone all the documents of the terms that it
    does not visit; of a visited term that has a record, the record is
    lost, not updated: the first document that carries the term is
    replaced by a document without term, so that the documents of the term
    afterwards are those before the call less the first. *)
Theorem updateIDF_replaces_known_record (math_Log : float -> float)
    (o : range_order) (frequency : list (Token * Z)) (data : DBConnector)
    (t : string) :
  NoDup (map GetText (map fst (o _ frequency))) ->
  t <> "" ->
  (~ In t (map GetText (map fst (o _ frequency))) ->
   filter (has_term t) (weightTable (updateIDF math_Log o frequency data))
   = filter (has_term t) (weightTable data)) /\
  (In t (map GetText (map fst (o _ frequency))) ->
   lookup_weight t (weightTable data) <> None ->
   filter (has_term t) (weightTable (updateIDF math_Log o frequency data))
   = tl (filter (has_term t) (weightTable data))).
Proof.
  intros Hnd Hne. unfold updateIDF. cbn [weightTable set_weightTable]. split.
  - intros Hnot. now rewrite updateIDF_fold_other_documents.
  - intros Hin Hknown.
    destruct (lookup_weight t (weightTable data)) as [row|] eqn:Hrow;
      [|congruence].
    now apply updateIDF_fold_known with (row := row).
Qed.

Lemma updateIDF_replaces_known_record_witness :
  let frequency := frequency_of Sample.lexto (Sample.post "doc1" "cat dog" "") in
  (~ In "cat" (map GetText (map fst (in_order _ frequency))) ->
   filter (has_term "cat")
     (weightTable (updateIDF Sample.log in_order frequency Sample.knows_cat))
   = filter (has_term "cat") (weightTable Sample.knows_cat)) /\
  (In "cat" (map GetText (map fst (in_order _ frequency))) ->
   lookup_weight "cat" (weightTable Sample.knows_cat) <> None ->
   filter (has_term "cat")
     (weightTable (updateIDF Sample.log in_order frequency Sample.knows_cat))
   = tl (filter (has_term "cat") (weightTable Sample.knows_cat))).
Proof.
  apply (updateIDF_replaces_known_record Sample.log in_order
           (frequency_of Sample.lexto (Sample.post "doc1" "cat dog" ""))
           Sample.knows_cat "cat").
  - vm_compute. repeat constructor; simpl; intuition discriminate.
  - discriminate.
Defined.

(** ** The rows written by [newIndexes] *)

Section RowFacts.

Variable lexto : string -> list Token.
Variable math_Log : float -> float.

Lemma newIndexes_fold_keeps (weights : list Weight_Document) (blogID : ObjectId)
    (norm : float) (visited : list (Token * Z))
    (state : Term_Weight * list Inverted_Index) (row : Inverted_Index) :
  In row (snd state) ->
  In row (snd (fold_left (newIndexes_step weights blogID norm) visited state)).
Proof.
  revert state. induction visited as [|[k v] visited IH]; intros [idf index] H;
    cbn [fold_left]; [exact H|].
  apply IH. simpl. unfold Insert. apply in_or_app. now left.
Qed.

Lemma newIndexes_fold_row (weights : list Weight_Document) (blogID : ObjectId)
    (norm : float) (visited : list (Token * Z))
    (state : Term_Weight * list Inverted_Index) (key : Token) (value : Z)
    (record : Term_Weight) :
  In (key, value) visited ->
  lookup_weight (GetText key) weights = Some record ->
  In {| idx_Term := GetText key;
        idx_Blog_id := blogID;
        idx_Tf := term_freq value norm;
        idx_Tf_Idf := tf_idf (term_freq value norm) (tw_Idf record) |}
     (snd (fold_left (newIndexes_step weights blogID norm) visited state)).
Proof.
  intros Hin Hrec. revert state.
  induction visited as [|[k v] visited IH]; intros [idf index]; [destruct Hin|].
  cbn [fold_left]. destruct Hin as [Heq | Hin].
  - injection Heq as -> ->. apply newIndexes_fold_keeps.
    unfold newIndexes_step, One. rewrite (lookup_weight_find _ _ _ Hrec).
    simpl. unfold Insert. apply in_or_app. right. now left.
  - now apply IH.
Qed.

(** X11: for every entry of the frequency map whose term has a record,
    [newIndexes] writes a row for the blog with the term frequency
    [occurrences / norm] and with that frequency times the stored idf of the
    term, whatever the order in which the map is visited. *)
Theorem newIndexes_row_of_known_term (o : range_order)
    (frequency : list (Token * Z)) (blogID : ObjectId) (norm : float)
    (data : DBConnector) (key : Token) (value : Z) (record : Term_Weight) :
  fair o ->
  In (key, value) frequency ->
  lookup_weight (GetText key) (weightTable data) = Some record ->
  In {| idx_Term := GetText key;
        idx_Blog_id := blogID;
        idx_Tf := (GoInt.to_float64 value / norm)%float;
        idx_Tf_Idf := (GoInt.to_float64 value / norm * tw_Idf record)%float |}
     (termTable (newIndexes o frequency blogID norm data)).
Proof.
  intros Hfair Hin Hrec. unfold newIndexes. cbn [termTable set_termTable].
  apply (newIndexes_fold_row _ _ _ _ _ key value record); [|exact Hrec].
  apply (Permutation_in _ (Permutation_sym (Hfair _ _))). exact Hin.
Qed.

Lemma frequency_of_nil (b : Blog) :
  (forall token, In token (lexto (assemble b)) -> indexable token = false) ->
  frequency_of lexto b = [].
Proof.
  intros Hnone. destruct (frequency_of lexto b) as [|[k v] rest] eqn:E;
    [reflexivity|].
  assert (Hk : In k (map fst (frequency_of lexto b))) by (rewrite E; now left).
  apply frequency_of_In in Hk as [Hin Hidx].
  rewrite (Hnone k Hin) in Hidx. discriminate.
Qed.

(** X12: a blog whose text yields only whitespace and markup tokens (an
    empty blog among them) is indexed without effect: [AddIndexes] leaves
    the inverted index and the statistics store as they were. *)
Theorem AddIndexes_without_terms (o_norm o_idf o_idx : range_order) (b : Blog)
    (data : DBConnector) :
  fair o_idf -> fair o_idx ->
  (forall token, In token (lexto (assemble b)) ->
                 IsSpace token = true \/ IsHTML token = true) ->
  termTable (AddIndexes lexto math_Log o_norm o_idf o_idx b data) = termTable data /\
  weightTable (AddIndexes lexto math_Log o_norm o_idf o_idx b data)
  = weightTable data.
Proof.
  intros Hidf Hidx Hnone.
  assert (Hempty : frequency_of lexto b = []).
  { apply frequency_of_nil. intros token Hin. unfold indexable.
    destruct (Hnone token Hin) as [-> | ->]; [reflexivity|].
    now rewrite orb_true_r. }
  split.
  - destruct (AddIndexes_termTable lexto math_Log o_norm o_idf o_idx b data)
      as [rows [-> Hmap]].
    rewrite Hempty in Hmap.
    rewrite (Permutation_nil (Permutation_sym (Hidx _ []))) in Hmap.
    destruct rows; [now rewrite app_nil_r | discriminate].
  - rewrite AddIndexes_weightTable, Hempty.
    now rewrite (Permutation_nil (Permutation_sym (Hidf _ []))).
Qed.

(** X13: [AddIndexes] only appends to the inverted index: the rows present
    before the call stay in front, unchanged, and the rows added are one per
    distinct counted token of the blog, all for the identifier of the blog
    and with pairwise distinct terms. *)
Theorem AddIndexes_appends_rows (o_norm o_idf o_idx : range_order) (b : Blog)
    (data : DBConnector) :
  fair o_idx ->
  exists rows,
    termTable (AddIndexes lexto math_Log o_norm o_idf o_idx b data)
    = termTable data ++ rows /\
    List.length rows = List.length (frequency_of lexto b) /\
    Forall (fun row => idx_Blog_id row = Blog_id b) rows /\
    NoDup (map idx_Term rows).
Proof.
  intros Hfair.
  destruct (AddIndexes_termTable lexto math_Log o_norm o_idf o_idx b data)
    as [rows [Heq Hmap]].
  exists rows. split; [exact Heq|]. split; [|split].
  - rewrite <- (length_map (fun r => (idx_Term r, idx_Blog_id r)) rows), Hmap.
    rewrite length_map. apply Permutation_length, Hfair.
  - apply Forall_forall. intros row Hrow.
    assert (H : In (idx_Term row, idx_Blog_id row)
                  (map (fun r => (idx_Term r, idx_Blog_id r)) rows)).
    { change (idx_Term row, idx_Blog_id row)
        with ((fun r => (idx_Term r, idx_Blog_id r)) row). now apply in_map. }
    rewrite Hmap in H. apply in_map_iff in H as [kv [Hkv _]].
    now injection Hkv.
  - assert (Hterms : map idx_Term rows
                     = map GetText (map fst (o_idx _ (frequency_of lexto b)))).
    { transitivity (map fst (map (fun r => (idx_Term r, idx_Blog_id r)) rows)).
      - rewrite map_map. reflexivity.
      - rewrite Hmap, !map_map. reflexivity. }
    rewrite Hterms. now apply visited_texts_NoDup.
Qed.

End RowFacts.

Lemma newIndexes_row_of_known_term_witness :
  In {| idx_Term := "cat";
        idx_Blog_id := "doc9";
        idx_Tf := (GoInt.to_float64 2 / 2)%float;
        idx_Tf_Idf := (GoInt.to_float64 2 / 2 * tw_Idf (Sample.weight "cat" 1 1.5))%float |}
     (termTable
        (newIndexes backwards
           [(Sample.word_token "zebra", 1); (Sample.word_token "cat", 2)]
           "doc9" 2 Sample.knows_cat)).
Proof.
  apply (newIndexes_row_of_known_term backwards
           [(Sample.word_token "zebra", 1); (Sample.word_token "cat", 2)]
           "doc9" 2 Sample.knows_cat (Sample.word_token "cat") 2
           (Sample.weight "cat" 1 1.5)).
  - exact backwards_fair.
  - simpl. auto.
  - reflexivity.
Defined.

Lemma AddIndexes_without_terms_witness :
  termTable (AddIndexes Sample.lexto Sample.log in_order in_order in_order
               (Sample.post "doc7" "<p>" " <br>") Sample.knows_cat)
  = termTable Sample.knows_cat /\
  weightTable (AddIndexes Sample.lexto Sample.log in_order in_order in_order
                 (Sample.post "doc7" "<p>" " <br>") Sample.knows_cat)
  = weightTable Sample.knows_cat.
Proof.
  apply (AddIndexes_without_terms Sample.lexto Sample.log in_order in_order
           in_order (Sample.post "doc7" "<p>" " <br>") Sample.knows_cat).
  - exact in_order_fair.
  - exact in_order_fair.
  - vm_compute. intros token H.
    repeat (destruct H as [<- | H]; [auto|]). destruct H.
Defined.

Lemma AddIndexes_appends_rows_witness :
  exists rows,
    termTable (AddIndexes Sample.lexto Sample.log in_order in_order backwards
                 (Sample.post "doc1" "cat dog cat" "") Sample.knows_cat)
    = termTable Sample.knows_cat ++ rows /\
    List.length rows
    = List.length (frequency_of Sample.lexto (Sample.post "doc1" "cat dog cat" "")) /\
    Forall (fun row => idx_Blog_id row = "doc1") rows /\
    NoDup (map idx_Term rows).
Proof.
  apply (AddIndexes_appends_rows Sample.lexto Sample.log in_order in_order
           backwards (Sample.post "doc1" "cat dog cat" "") Sample.knows_cat).
  exact backwards_fair.
Defined.

(** ** Removal after indexing *)

Lemma RemoveAll_none {R : Type} (sel : R -> bool) (table : list R) :
  (forall row, In row table -> sel row = false) -> RemoveAll sel table = table.
Proof.
  unfold RemoveAll. induction table as [|r table IH]; intros H; simpl;
    [reflexivity|].
  rewrite (H r (or_introl eq_refl)). simpl. f_equal. apply IH.
  intros row Hrow. apply H. now right.
Qed.

Lemma RemoveAll_all {R : Type} (sel : R -> bool) (table : list R) :
  (forall row, In row table -> sel row = true) -> RemoveAll sel table = [].
Proof.
  unfold RemoveAll. induction table as [|r table IH]; intros H; simpl;
    [reflexivity|].
  rewrite (H r (or_introl eq_refl)). simpl. apply IH.
  intros row Hrow. apply H. now right.
Qed.

Section RemovalRoundTrip.

Variable lexto : string -> list Token.
Variable math_Log : float -> float.
Variable term_is_token : string -> Token -> bool.
Variable sort_Sort : list Similarity -> list Similarity.

Hypothesis sort_Sort_permutes : forall l, Permutation (sort_Sort l) l.

(** X15: [RemoveIndexes] right after [AddIndexes] of the same blog restores
    the inverted index, provided the blog had no row before, but not the
    statistics: the documents replaced and the records inserted by
    [AddIndexes] all stay. *)
Theorem RemoveIndexes_undoes_rows_only (o_norm o_idf o_idx : range_order)
    (b : Blog) (data : DBConnector) :
  (forall row, In row (termTable data) -> idx_Blog_id row <> Blog_id b) ->
  termTable
    (RemoveIndexes term_is_token b
       (AddIndexes lexto math_Log o_norm o_idf o_idx b data))
  = termTable data /\
  weightTable
    (RemoveIndexes term_is_token b
       (AddIndexes lexto math_Log o_norm o_idf o_idx b data))
  = weightTable (AddIndexes lexto math_Log o_norm o_idf o_idx b data).
Proof.
  intros Hnew. split; [|reflexivity].
  change (RemoveAll (fun row => idx_Blog_id row =? Blog_id b)
            (termTable (AddIndexes lexto math_Log o_norm o_idf o_idx b data))
          = termTable data).
  destruct (AddIndexes_termTable lexto math_Log o_norm o_idf o_idx b data)
    as [rows [-> Hmap]].
  unfold RemoveAll. rewrite filter_app.
  fold (RemoveAll (fun row => idx_Blog_id row =? Blog_id b) (termTable data)).
  fold (RemoveAll (fun row => idx_Blog_id row =? Blog_id b) rows).
  rewrite RemoveAll_none, RemoveAll_all.
  - apply app_nil_r.
  - intros row Hrow. apply String.eqb_eq.
    assert (H : In (idx_Term row, idx_Blog_id row)
                  (map (fun r => (idx_Term r, idx_Blog_id r)) rows)).
    { change (idx_Term row, idx_Blog_id row)
        with ((fun r => (idx_Term r, idx_Blog_id r)) row). now apply in_map. }
    rewrite Hmap in H. apply in_map_iff in H as [kv [Hkv _]].
    now injection Hkv.
  - intros row Hrow. destruct (idx_Blog_id row =? Blog_id b) eqn:E;
      [|reflexivity].
    apply String.eqb_eq in E. exfalso. now apply (Hnew row).
Qed.

(** X16: after [RemoveIndexes] of a blog no [Query] returns its
    identifier, whatever the text and whatever was indexed before. *)
Theorem Query_after_RemoveIndexes (o : range_order) (keyword : string)
    (b : Blog) (data : DBConnector) :
  ~ In (Blog_id b)
      (fst (Query lexto sort_Sort o keyword (RemoveIndexes term_is_token b data))).
Proof.
  intros H. rewrite (Query_result lexto sort_Sort) in H.
  apply (Permutation_in _ (rank_Permutation sort_Sort sort_Sort_permutes _ _ _ _)) in H.
  apply retrieve_In in H as [row [Hrow [_ Hid]]].
  change (In row (RemoveAll (fun r => idx_Blog_id r =? Blog_id b) (termTable data)))
    in Hrow.
  unfold RemoveAll in Hrow. apply filter_In in Hrow as [_ Hsel].
  rewrite Hid, String.eqb_refl in Hsel. discriminate.
Qed.

(** X18: the bulk operation makes every stored blog retrievable: after
    [Create_index_forAllBlogs], a query that holds, as a token that is not
    whitespace, the text of a counted token of a stored blog returns the
    identifier of that blog. *)
Theorem Create_index_forAllBlogs_then_Query (o_norm o_idf o_idx o : range_order)
    (data : DBConnector) (b : Blog) (text : string) (token qtoken : Token) :
  fair o_idx ->
  In b (blogTable data) ->
  In token (lexto (assemble b)) -> indexable token = true ->
  In qtoken (lexto text) -> IsSpace qtoken = false ->
  GetText qtoken = GetText token ->
  In (Blog_id b)
    (fst (Query lexto sort_Sort o text
            (Create_index_forAllBlogs lexto math_Log o_norm o_idf o_idx data))).
Proof.
  intros Hfair Hb Hin Hidx Hq Hqns Htext.
  rewrite Create_index_forAllBlogs_run_calls.
  apply in_split in Hb as [l1 [l2 Hsplit]]. rewrite Hsplit, map_app.
  unfold run_calls. rewrite fold_left_app. cbn [map fold_left].
  fold (run_calls lexto math_Log). unfold run_call at 2.
  cbn [call_norm call_idf call_idx call_blog].
  match goal with
  | |- context [AddIndexes lexto math_Log o_norm o_idf o_idx b ?d] =>
      destruct (AddIndexes_indexes_term lexto math_Log o_norm o_idf o_idx b d
                  token Hfair Hin Hidx) as [row [Hrow [Hterm Hid]]]
  end.
  rewrite <- Hid.
  apply (Query_returns_indexed lexto sort_Sort sort_Sort_permutes).
  - now apply run_calls_termTable_grows.
  - rewrite Hterm, <- Htext.
    apply (Query_terms_complete lexto); assumption.
Qed.

End RemovalRoundTrip.

(** X19: the bulk operation keeps the stored idf values in agreement with
    the counts: when every document of the statistics store agrees with
    the corpus size before [Create_index_forAllBlogs] (as on an empty
    store), every document agrees with it afterwards, the records inserted
    and the documents put in the place of a record included. *)
Theorem Create_index_forAllBlogs_keeps_idf (lexto : string -> list Token)
    (math_Log : float -> float) (o_norm o_idf o_idx : range_order)
    (data : DBConnector) :
  Forall (idf_agrees math_Log (corpus_size data)) (weightTable data) ->
  Forall (idf_agrees math_Log (corpus_size data))
    (weightTable (Create_index_forAllBlogs lexto math_Log o_norm o_idf o_idx data)).
Proof.
  intros H. rewrite Create_index_forAllBlogs_run_calls.
  now apply run_calls_agrees.
Qed.


Lemma RemoveIndexes_undoes_rows_only_witness :
  termTable
    (RemoveIndexes Sample.by_text (Sample.post "doc1" "cat dog" "")
       (AddIndexes Sample.lexto Sample.log in_order in_order in_order
          (Sample.post "doc1" "cat dog" "") Sample.knows_cat))
  = termTable Sample.knows_cat /\
  weightTable
    (RemoveIndexes Sample.by_text (Sample.post "doc1" "cat dog" "")
       (AddIndexes Sample.lexto Sample.log in_order in_order in_order
          (Sample.post "doc1" "cat dog" "") Sample.knows_cat))
  = weightTable
      (AddIndexes Sample.lexto Sample.log in_order in_order in_order
         (Sample.post "doc1" "cat dog" "") Sample.knows_cat).
Proof.
  apply (RemoveIndexes_undoes_rows_only Sample.lexto Sample.log Sample.by_text
           in_order in_order in_order (Sample.post "doc1" "cat dog" "")
           Sample.knows_cat).
  intros row [<- | []]. discriminate.
Defined.

Lemma Query_after_RemoveIndexes_witness :
  ~ In "doc1"
      (fst (Query Sample.lexto insertionSort in_order "cat dog"
              (RemoveIndexes Sample.by_text (Sample.post "doc1" "cat dog" "")
                 Sample.two_docs))).
Proof.
  apply (Query_after_RemoveIndexes Sample.lexto Sample.by_text insertionSort
           insertionSort_Permutation in_order "cat dog"
           (Sample.post "doc1" "cat dog" "") Sample.two_docs).
Defined.

Lemma RemoveIndexes_keeps_rows_witness :
  In (Sample.stored "cat" 1 1)
    (weightTable (RemoveIndexes Sample.by_text (Sample.post "doc1" "cat" "")
                    Sample.leftover_dog)) /\
  In (Sample.stored "cat" 1 1) (weightTable Sample.leftover_dog).
Proof.
  assert (H : In (Sample.stored "cat" 1 1)
                (weightTable (RemoveIndexes Sample.by_text
                                (Sample.post "doc1" "cat" "") Sample.leftover_dog))).
  { vm_compute. now left. }
  split; [exact H|].
  apply (RemoveIndexes_keeps_rows Sample.by_text (Sample.post "doc1" "cat" "")
           Sample.leftover_dog (Sample.stored "cat" 1 1) H).
Defined.

Lemma Create_index_forAllBlogs_then_Query_witness :
  In "doc2"
    (fst (Query Sample.lexto insertionSort in_order "any fish"
            (Create_index_forAllBlogs Sample.lexto Sample.log in_order in_order
               backwards Sample.two_blogs))).
Proof.
  apply (Create_index_forAllBlogs_then_Query Sample.lexto Sample.log insertionSort
           insertionSort_Permutation in_order in_order backwards in_order
           Sample.two_blogs (Sample.post "doc2" "fish cat" "") "any fish"
           (Sample.word_token "fish") (Sample.word_token "fish")).
  - exact backwards_fair.
  - simpl. auto.
  - vm_compute. auto.
  - reflexivity.
  - vm_compute. auto.
  - reflexivity.
  - reflexivity.
Defined.

Lemma Create_index_forAllBlogs_keeps_idf_witness :
  Forall (idf_agrees Sample.log (corpus_size Sample.two_blogs))
    (weightTable (Create_index_forAllBlogs Sample.lexto Sample.log in_order
                    in_order in_order Sample.two_blogs)).
Proof.
  apply (Create_index_forAllBlogs_keeps_idf Sample.lexto Sample.log in_order
           in_order in_order Sample.two_blogs).
  constructor.
Defined.

Lemma cosineSimilarity_empty_blog_witness :
  PrimFloat.is_nan (cosineSimilarity backwards [("cat", 1.5%float)] []) = true.
Proof.
  apply (cosineSimilarity_empty_blog backwards [("cat", 1.5%float)]).
  exact backwards_fair.
Defined.

(** ** Norms *)

Lemma sqrt_not_negative (x : float) :
  PrimFloat.ltb (PrimFloat.sqrt x) 0 = false.
Proof.
  rewrite ltb_spec, sqrt_spec. change (Prim2SF 0) with (S754_zero false).
  unfold SF64sqrt, SFsqrt.
  destruct (Prim2SF x) as [s | s | | s m e]; try reflexivity.
  - destruct s; reflexivity.
  - destruct s; try reflexivity.
    destruct (SFsqrt_core_binary _ _ _ _) as [[mz ez] lz].
    unfold binary_round_aux.
    destruct (shr_fexp _ _ _ _ _) as [mrs' e'].
    destruct (shr_fexp _ _ _ _ _) as [mrs'' e''].
    destruct (shr_m mrs''); try reflexivity.
    destruct (_ <=? _)%Z; reflexivity.
Qed.

(** X21: the magnitude of a vector and the Euclidean norm of a frequency
    map are never negative, whatever the entries (weights that are negative,
    infinite or NaN, counts that overflow) and the visiting order: the
    comparison [< 0] fails on them. *)
Theorem norms_not_negative (o : range_order) (vector : list (string * float))
    (frequency : list (Token * Z)) :
  PrimFloat.ltb (magnitude o vector) 0 = false /\
  PrimFloat.ltb (euclidean_norm o frequency) 0 = false.
Proof. split; apply sqrt_not_negative. Qed.
